(** * OLI-Converters: the Blockscout enrichment pipeline of [main.py]

    A shallow embedding of the fetch / map / dispatch code of [main.py]
    and the properties of its specification.

    Conventions.
    - Python values that come out of a JSON body are [PyVal]s; the
      fields of a [Contract] that the loader fills and the pipeline
      never overwrites with response data keep their declared type.
    - The pipeline mutates [Contract] objects in place, so records live
      in a store and the code passes references around.
    - [requests.get], [time.sleep] and [print] are effects: they are
      recorded, in order, in the list of events of the world.
    - An exception is a value [inl e] of the result. *)

From Stdlib Require Import ZArith String Ascii List Bool Lia.
From Stdlib Require Import Floats.SpecFloat.
From stdpp Require Import base option list strings.

Set Warnings "-register-all".

Local Open Scope string_scope.
Local Open Scope list_scope.
Local Open Scope Z_scope.

(** ** Python values *)

Module Py.

(** The values [json.loads] produces. *)
Inductive PyVal : Type :=
| VNone
| VBool (b : bool)
| VInt (n : Z)
| VFloat (f : spec_float)
| VStr (s : string)
| VList (l : list PyVal)
| VDict (kv : list (string * PyVal)).

(** [bool(v)]. *)
Definition truthy (v : PyVal) : bool :=
  match v with
  | VNone => false
  | VBool b => b
  | VInt n => negb (n =? 0)
  | VFloat (S754_zero _) => false
  | VFloat _ => true
  | VStr EmptyString => false
  | VStr _ => true
  | VList [] => false
  | VList _ => true
  | VDict [] => false
  | VDict _ => true
  end.

(** [any(l)]. *)
Definition any (l : list PyVal) : bool := existsb truthy l.

(** The exceptions the pipeline can meet.  [JSONDecodeError] is a subclass
    of [ValueError]; all of them are subclasses of [Exception]. *)
Inductive exn : Type :=
| ValueError (msg : string)
| JSONDecodeError
| TypeError
| AttributeError
| RequestException
| Exception (msg : string).

(** [isinstance(e, ValueError)]. *)
Definition is_ValueError (e : exn) : bool :=
  match e with
  | ValueError _ | JSONDecodeError => true
  | _ => false
  end.

(** [str.lower] on the ASCII letters; a [str] is kept as its UTF-8 bytes.
    Python lowers non-ASCII letters too; no such letter lowers to a letter
    of ["proxy"] or ["erc1967"], so the tests of the mapper read the same on
    both. *)
Definition lower_ascii (a : ascii) : ascii :=
  let n := nat_of_ascii a in
  if ((65 <=? n)%nat && (n <=? 90)%nat)%bool then ascii_of_nat (n + 32) else a.

Fixpoint lower (s : string) : string :=
  match s with
  | EmptyString => EmptyString
  | String a t => String (lower_ascii a) (lower t)
  end.

(** [v.lower()]: only a [str] has the method. *)
Definition py_lower (v : PyVal) : exn + string :=
  match v with
  | VStr s => inr (lower s)
  | _ => inl AttributeError
  end.

(** [needle in hay] on strings. *)
Fixpoint contains (needle hay : string) : bool :=
  (String.prefix needle hay ||
   match hay with
   | EmptyString => false
   | String _ t => contains needle t
   end)%bool.

(** [l[:stop]]: a negative [stop] counts from the end, and both ends
    are clamped to the list. *)
Definition slice_to {A} (l : list A) (stop : Z) : list A :=
  if stop <? 0
  then firstn (Z.to_nat (Z.max 0 (Z.of_nat (length l) + stop))) l
  else firstn (Z.to_nat stop) l.

(** [a or b] on integers: [a] when it is not zero. *)
Definition int_or (a b : Z) : Z := if a =? 0 then b else a.

(** [d[key] = v] on a dict kept as its list of items. *)
Fixpoint dict_set (key : string) (v : PyVal) (kv : list (string * PyVal))
  : list (string * PyVal) :=
  match kv with
  | [] => [(key, v)]
  | (k, w) :: rest =>
      if String.eqb k key then (k, v) :: rest else (k, w) :: dict_set key v rest
  end.

(** [d.get(key)] on a dict literal, kept as its list of items. *)
Fixpoint dict_get {V} (d : list (string * V)) (key : string) : option V :=
  match d with
  | [] => None
  | (k, v) :: rest => if String.eqb k key then Some v else dict_get rest key
  end.

End Py.
Export Py.

(** ** Data model *)

Record Contract := mkContract {
  address : string;
  chain_id : string;
  name : PyVal;
  owner_project : string;
  usage_category : string;
  deployment_tx : string;
  deployer_address : string;
  deployment_date : PyVal;
  verified_status : bool;
  is_proxy_contract : bool;
  proxy_address : PyVal;
  implementation_address : PyVal;
  source_repo_url : PyVal;
  origin_key : string
}.

(** [Contract(address=a, origin_key=k, chain_id=k)], as the loader builds it. *)
Definition seed (a k : string) : Contract :=
  mkContract a k (VStr "") "" "" "" "" (VStr "") false false
             (VStr "") (VStr "") (VStr "") k.

Record BlockscoutResponse := mkResponse {
  r_address : PyVal;
  r_name : PyVal;
  is_verified : PyVal;
  is_fully_verified : PyVal;
  is_partially_verified : PyVal;
  is_verified_via_sourcify : PyVal;
  sourcify_repo_url : PyVal;
  minimal_proxy_address_hash : PyVal;
  compiler_version : PyVal;
  evm_version : PyVal;
  optimizer : PyVal;
  verified_at : PyVal;
  additional_fields : PyVal
}.

Record ProcessingStats := mkStats {
  total_contracts : Z;
  processed_count : Z;
  contracts_with_name : Z;
  proxy_contracts : Z;
  elapsed_time : string
}.

(** The class defaults, with [additional_fields] as [__post_init__] leaves it. *)
Definition response_defaults : BlockscoutResponse :=
  mkResponse (VStr "") (VStr "") (VBool false) (VBool false) (VBool false)
             (VBool false) (VStr "") (VStr "") (VStr "") (VStr "") (VStr "")
             (VStr "") (VDict []).

(** [setattr(self, key, value)] for a [key] among the dataclass fields;
    [None] when [key] is not a field. *)
Definition setattr_field (key : string) (v : PyVal) (d : BlockscoutResponse)
  : option BlockscoutResponse :=
  let '(mkResponse a n v1 v2 v3 v4 su mp cv ev op va af) := d in
  if String.eqb key "address" then Some (mkResponse v n v1 v2 v3 v4 su mp cv ev op va af)
  else if String.eqb key "name" then Some (mkResponse a v v1 v2 v3 v4 su mp cv ev op va af)
  else if String.eqb key "is_verified" then Some (mkResponse a n v v2 v3 v4 su mp cv ev op va af)
  else if String.eqb key "is_fully_verified" then Some (mkResponse a n v1 v v3 v4 su mp cv ev op va af)
  else if String.eqb key "is_partially_verified" then Some (mkResponse a n v1 v2 v v4 su mp cv ev op va af)
  else if String.eqb key "is_verified_via_sourcify" then Some (mkResponse a n v1 v2 v3 v su mp cv ev op va af)
  else if String.eqb key "sourcify_repo_url" then Some (mkResponse a n v1 v2 v3 v4 v mp cv ev op va af)
  else if String.eqb key "minimal_proxy_address_hash" then Some (mkResponse a n v1 v2 v3 v4 su v cv ev op va af)
  else if String.eqb key "compiler_version" then Some (mkResponse a n v1 v2 v3 v4 su mp v ev op va af)
  else if String.eqb key "evm_version" then Some (mkResponse a n v1 v2 v3 v4 su mp cv v op va af)
  else if String.eqb key "optimizer" then Some (mkResponse a n v1 v2 v3 v4 su mp cv ev v va af)
  else if String.eqb key "verified_at" then Some (mkResponse a n v1 v2 v3 v4 su mp cv ev op v af)
  else if String.eqb key "additional_fields" then Some (mkResponse a n v1 v2 v3 v4 su mp cv ev op va v)
  else None.

Definition set_additional_fields (af : PyVal) (d : BlockscoutResponse) : BlockscoutResponse :=
  let '(mkResponse a n v1 v2 v3 v4 su mp cv ev op va _) := d in
  mkResponse a n v1 v2 v3 v4 su mp cv ev op va af.

(** The loop of [BlockscoutResponse.__init__] over [kwargs.items()].  A key
    that is no field goes to [self.additional_fields[key]]; that item
    assignment needs a dict there, and the key ["additional_fields"] of the
    body can have put anything in its place. *)
Fixpoint init_loop (kwargs : list (string * PyVal)) (d : BlockscoutResponse)
  : exn + BlockscoutResponse :=
  match kwargs with
  | [] => inr d
  | (key, value) :: rest =>
      match setattr_field key value d with
      | Some d' => init_loop rest d'
      | None =>
          match additional_fields d with
          | VDict kv => init_loop rest (set_additional_fields (VDict (dict_set key value kv)) d)
          | _ => inl TypeError
          end
      end
  end.

(** Whether the items [kwargs] have the key [key]. *)
Definition has_key (kwargs : list (string * PyVal)) (key : string) : bool :=
  existsb (fun item => String.eqb (fst item) key) kwargs.

(** The call of [BlockscoutResponse] on the keywords of [v]: [v] must be
    a mapping, and it must not have the key ["self"], which is the name of
    the first parameter of [__init__]: Python refuses the call with a
    [TypeError] before the body of [__init__] runs. *)
Definition new_BlockscoutResponse (v : PyVal) : exn + BlockscoutResponse :=
  match v with
  | VDict kwargs =>
      if has_key kwargs "self" then inl TypeError
      else init_loop kwargs response_defaults
  | _ => inl TypeError
  end.

(** ** Endpoint registry *)

Definition BLOCKSCOUT_APIS : list (string * string) :=
    [ ("optimism", "https://optimism.blockscout.com/api/v2/smart-contracts/");
      ("polygon_zkevm", "https://zkevm.blockscout.com/api/v2/smart-contracts/");
      ("mode", "https://explorer.mode.network/api/v2/smart-contracts/");
      ("arbitrum", "https://arbitrum.blockscout.com//api/v2/smart-contracts/");
      ("zora", "https://explorer.zora.energy/api/v2/smart-contracts/");
      ("base", "https://base.blockscout.com/api/v2/smart-contracts/");
      ("zksync_era", "https://zksync.blockscout.com/api/v2/smart-contracts/");
      ("linea", "https://explorer.linea.build/api/v2/smart-contracts/");
      ("redstone", "https://explorer.redstone.xyz/api/v2/smart-contracts/") ].

Definition CHAIN_ID_MAP : list (string * string) :=
    [ ("optimism", "eip155-10");
      ("polygon_zkevm", "eip155-1101");
      ("mode", "eip155-34443");
      ("arbitrum", "eip155-42161");
      ("zora", "eip155-7777777");
      ("base", "eip155-8453");
      ("zksync_era", "eip155-324");
      ("linea", "eip155-59144");
      ("redstone", "eip155-17001") ].

(** ** The store, the effects and the monad of the pipeline *)

(** A [Contract] object is known by its reference. *)
Definition ref := nat.

(** What [print] is given; the f-string is kept as its parts. *)
Inductive message : Type :=
| MsgUnknownOrigin (addr key : string)
| MsgNotFound (addr key : string)
| MsgError (addr : string) (e : exn)
| MsgProgress (processed total : Z).

Inductive event : Type :=
| Get (url : string)
| Sleep (secs : Z)
| Print (m : message).

(** What one [requests.get] does: it raises, or it returns a response with
    a status code and a body that [response.json()] parses ([Some v]) or
    rejects ([None]). *)
Inductive Reply : Type :=
| ConnectionError
| Response (status_code : Z) (body : option PyVal).

Record world := mkWorld {
  heap : ref -> Contract;
  events : list event;
  sent : nat
}.

Definition M (A : Type) : Type := world -> world * (exn + A).

#[export] Instance M_ret : MRet M := fun A x w => (w, inr x).
#[export] Instance M_bind : MBind M := fun A B f m w =>
  match m w with
  | (w', inr x) => f x w'
  | (w', inl e) => (w', inl e)
  end.

Definition raise {A} (e : exn) : M A := fun w => (w, inl e).

Definition lift {A} (x : exn + A) : M A := fun w => (w, x).

(** [try: body / except Exception as e: handler e]; every exception of
    [exn] is an [Exception]. *)
Definition try_except {A} (body : M A) (handler : exn -> M A) : M A := fun w =>
  match body w with
  | (w', inr x) => (w', inr x)
  | (w', inl e) => handler e w'
  end.

Definition emit (ev : event) : M unit := fun w =>
  (mkWorld (heap w) (events w ++ [ev]) (sent w), inr tt).

Definition print (m : message) : M unit := emit (Print m).

Definition time_sleep (secs : Z) : M unit := emit (Sleep secs).

Definition getattr {A} (r : ref) (field : Contract -> A) : M A := fun w =>
  (w, inr (field (heap w r))).

Definition store (r : ref) (c : Contract) (h : ref -> Contract) : ref -> Contract :=
  fun r' => if Nat.eqb r' r then c else h r'.

Definition setattr (r : ref) (upd : Contract -> Contract) : M unit := fun w =>
  (mkWorld (store r (upd (heap w r)) (heap w)) (events w) (sent w), inr tt).

Definition set_name (v : PyVal) (c : Contract) : Contract :=
  let '(mkContract a ci _ op uc dt da dd vs ip pa ia sr ok) := c in
  mkContract a ci v op uc dt da dd vs ip pa ia sr ok.
Definition set_verified_status (b : bool) (c : Contract) : Contract :=
  let '(mkContract a ci n op uc dt da dd _ ip pa ia sr ok) := c in
  mkContract a ci n op uc dt da dd b ip pa ia sr ok.
Definition set_source_repo_url (v : PyVal) (c : Contract) : Contract :=
  let '(mkContract a ci n op uc dt da dd vs ip pa ia _ ok) := c in
  mkContract a ci n op uc dt da dd vs ip pa ia v ok.
Definition set_is_proxy_contract (b : bool) (c : Contract) : Contract :=
  let '(mkContract a ci n op uc dt da dd vs _ pa ia sr ok) := c in
  mkContract a ci n op uc dt da dd vs b pa ia sr ok.
Definition set_proxy_address (v : PyVal) (c : Contract) : Contract :=
  let '(mkContract a ci n op uc dt da dd vs ip _ ia sr ok) := c in
  mkContract a ci n op uc dt da dd vs ip v ia sr ok.
Definition set_implementation_address (v : PyVal) (c : Contract) : Contract :=
  let '(mkContract a ci n op uc dt da dd vs ip pa _ sr ok) := c in
  mkContract a ci n op uc dt da dd vs ip pa v sr ok.
Definition set_chain_id (s : string) (c : Contract) : Contract :=
  let '(mkContract a _ n op uc dt da dd vs ip pa ia sr ok) := c in
  mkContract a s n op uc dt da dd vs ip pa ia sr ok.
Definition set_deployment_date (v : PyVal) (c : Contract) : Contract :=
  let '(mkContract a ci n op uc dt da _ vs ip pa ia sr ok) := c in
  mkContract a ci n op uc dt da v vs ip pa ia sr ok.

(** ** Explorer client, response mapper and the unit of work *)

Section Task.

(** The replies the explorer gives to this task's requests, in the order
    the requests are sent. *)
Variable net : nat -> Reply.

(** [requests.get(url)]: the call is recorded, then it raises or returns. *)
Definition requests_get (url : string) : M (Z * option PyVal) := fun w =>
  let w' := mkWorld (heap w) (events w ++ [Get url]) (S (sent w)) in
  match net (sent w) with
  | ConnectionError => (w', inl RequestException)
  | Response status_code body => (w', inr (status_code, body))
  end.

(** [response.json()], then the construction of the [BlockscoutResponse]. *)
Definition decode (body : option PyVal) : exn + BlockscoutResponse :=
  match body with
  | None => inl JSONDecodeError
  | Some v => new_BlockscoutResponse v
  end.

Definition max_retries : nat := 3.
Definition retry_delay : Z := 1.

(** [for _ in range(n): ...] of [fetch_blockscout_data], then the final
    [raise], whose message is the f-string with [max_retries] filled in. *)
Fixpoint fetch_loop (url : string) (n : nat) : M BlockscoutResponse :=
  match n with
  | O => raise (Exception "Failed to fetch data after 3 retries")
  | S n' =>
      response ← requests_get url;
      if fst response =? 200 then lift (decode (snd response))
      else if fst response =? 404 then raise (ValueError "Contract not found")
      else time_sleep retry_delay;; fetch_loop url n'
  end.

Definition fetch_blockscout_data (api_url addr : string) : M BlockscoutResponse :=
  fetch_loop (api_url +:+ addr) max_retries.

Definition map_blockscout_to_open_labels (contract : ref) (blockscout_data : BlockscoutResponse)
  : M ref :=
  setattr contract (set_name (r_name blockscout_data));;
  setattr contract (set_verified_status
    (any [ is_verified blockscout_data;
           is_fully_verified blockscout_data;
           is_partially_verified blockscout_data;
           is_verified_via_sourcify blockscout_data ]));;
  setattr contract (set_source_repo_url (sourcify_repo_url blockscout_data));;
  setattr contract (set_is_proxy_contract (truthy (minimal_proxy_address_hash blockscout_data)));;
  setattr contract (set_proxy_address (minimal_proxy_address_hash blockscout_data));;
  setattr contract (set_implementation_address (minimal_proxy_address_hash blockscout_data));;
  is_proxy ← getattr contract is_proxy_contract;
  (if negb is_proxy then
     n1 ← getattr contract name;
     l1 ← lift (py_lower n1);
     if contains "proxy" l1 then setattr contract (set_is_proxy_contract true)
     else
       n2 ← getattr contract name;
       l2 ← lift (py_lower n2);
       if contains "erc1967" l2 then setattr contract (set_is_proxy_contract true)
       else mret tt
   else mret tt);;
  key ← getattr contract origin_key;
  old ← getattr contract chain_id;
  setattr contract (set_chain_id (default old (dict_get CHAIN_ID_MAP key)));;
  (if truthy (verified_at blockscout_data)
   then setattr contract (set_deployment_date (verified_at blockscout_data))
   else mret tt);;
  mret contract.

Definition process_contract (contract : ref) : M ref :=
  key ← getattr contract origin_key;
  match dict_get BLOCKSCOUT_APIS key with
  | Some (String a u) =>
      let api_url := String a u in
      returned ← try_except
        (addr ← getattr contract address;
         blockscout_data ← fetch_blockscout_data api_url addr;
         result ← map_blockscout_to_open_labels contract blockscout_data;
         mret (Some result))
        (fun e =>
           addr ← getattr contract address;
           (if is_ValueError e
            then k ← getattr contract origin_key; print (MsgNotFound addr k)
            else print (MsgError addr e));;
           mret None);
      match returned with
      | Some result => mret result
      | None => mret contract
      end
  | _ =>
      addr ← getattr contract address;
      k ← getattr contract origin_key;
      print (MsgUnknownOrigin addr k);;
      mret contract
  end.

End Task.

(** ** Dispatcher: [process_contracts] on the thread pool *)

(** A work item of the executor: the future's number, in submission order,
    and the [Contract] passed to [process_contract]. *)
Record Task := mkTask { tid : nat; obj : ref }.

(** The state of one call of [process_contracts].  The executor part
    follows [concurrent.futures.ThreadPoolExecutor]: [submit] queues a work
    item and, when no worker is idle and fewer than [max_workers] threads
    exist, starts a thread; a worker thread takes one item at a time from
    the queue, runs it, and signals that it is idle again.

    A work item is [process_contract] on one record.  The loader makes one
    object per row, so the work items touch different objects, and the
    effect of an item is taken as a whole when it completes. *)
Record pool := mkPool {
  p_heap : ref -> Contract;
  p_events : list event;
  to_submit : list ref;
  submitted : nat;
  work_queue : list Task;
  threads : nat;
  idle_semaphore : nat;
  running : list Task;
  finished : list (Task * (exn + ref));
  processed_contracts : list ref;
  stats : ProcessingStats;
  failed : option exn
}.

Definition max_workers : nat := 50.

(** The moves of the threads: the main thread submits the next record of
    the comprehension or takes a completed future from [as_completed]; a
    worker takes the next work item or completes the one it runs. *)
Inductive action : Type :=
| Submit
| Start
| Finish (i : nat)
| Collect (i : nat).

(** The body of the [for future in as_completed(...)] loop, after
    [contract = future.result()] returned. *)
Definition observe (c : Contract) (r : ref) (elapsed : string) (p : pool) : pool :=
  let st := stats p in
  let processed := processed_count st + 1 in
  let named := if truthy (name c) then contracts_with_name st + 1 else contracts_with_name st in
  let proxies := if is_proxy_contract c then proxy_contracts st + 1 else proxy_contracts st in
  mkPool (p_heap p)
         (p_events p ++ [Print (MsgProgress processed (total_contracts st))])
         (to_submit p) (submitted p) (work_queue p) (threads p) (idle_semaphore p)
         (running p) (finished p)
         (processed_contracts p ++ [r])
         (mkStats (total_contracts st) processed named proxies elapsed)
         (failed p).

Section Dispatcher.

(** [net t k]: the reply to the [k]-th request of the task of future [t]. *)
Variable net : nat -> nat -> Reply.

(** [clock k]: the elapsed time as formatted when the [k]-th result is
    taken. *)
Variable clock : nat -> string.

Definition step (a : action) (p : pool) : option pool :=
  match a with
  | Submit =>
      match to_submit p with
      | [] => None
      | contract :: rest =>
          let queue := work_queue p ++ [mkTask (submitted p) contract] in
          let '(n_threads, n_idle) :=
            match idle_semaphore p with
            | S idle => (threads p, idle)
            | O => (if (threads p <? max_workers)%nat then S (threads p) else threads p, O)
            end in
          Some (mkPool (p_heap p) (p_events p) rest (S (submitted p)) queue
                       n_threads n_idle (running p) (finished p)
                       (processed_contracts p) (stats p) (failed p))
      end
  | Start =>
      match work_queue p with
      | [] => None
      | t :: queue =>
          if (length (running p) <? threads p)%nat
          then Some (mkPool (p_heap p) (p_events p) (to_submit p) (submitted p) queue
                            (threads p) (idle_semaphore p) (running p ++ [t]) (finished p)
                            (processed_contracts p) (stats p) (failed p))
          else None
      end
  | Finish i =>
      match running p !! i with
      | None => None
      | Some t =>
          let '(w, result) :=
            process_contract (net (tid t)) (obj t) (mkWorld (p_heap p) (p_events p) 0) in
          Some (mkPool (heap w) (events w) (to_submit p) (submitted p) (work_queue p)
                       (threads p) (S (idle_semaphore p)) (delete i (running p))
                       (finished p ++ [(t, result)])
                       (processed_contracts p) (stats p) (failed p))
      end
  | Collect i =>
      match to_submit p, failed p, finished p !! i with
      | [], None, Some (t, result) =>
          let p' := mkPool (p_heap p) (p_events p) (to_submit p) (submitted p) (work_queue p)
                           (threads p) (idle_semaphore p) (running p)
                           (delete i (finished p))
                           (processed_contracts p) (stats p) (failed p) in
          match result with
          | inr contract =>
              Some (observe (p_heap p contract) contract
                            (clock (length (processed_contracts p))) p')
          | inl e =>
              Some (mkPool (p_heap p') (p_events p') (to_submit p') (submitted p')
                           (work_queue p') (threads p') (idle_semaphore p') (running p')
                           (finished p') (processed_contracts p') (stats p') (Some e))
          end
      | _, _, _ => None
      end
  end.

Fixpoint exec (acts : list action) (p : pool) : option pool :=
  match acts with
  | [] => Some p
  | a :: rest =>
      match step a p with
      | Some p' => exec rest p'
      | None => None
      end
  end.

(** The state on entry of the [with] block: nothing is submitted yet, and
    the comprehension will go through [contracts[:max_queries or len(contracts)]]. *)
Definition enter (h : ref -> Contract) (contracts : list ref) (max_queries : Z) : pool :=
  mkPool h [] (slice_to contracts (int_or max_queries (Z.of_nat (length contracts))))
         0 [] 0 0 [] [] []
         (mkStats (Z.of_nat (length contracts)) 0 0 0 "") None.

(** [process_contracts(contracts, max_queries)] on the store [h], with the
    threads moving as [acts] says; [None] when [acts] asks for a move that
    no thread can make. *)
Definition process_contracts (h : ref -> Contract) (contracts : list ref) (max_queries : Z)
    (acts : list action) : option pool :=
  exec acts (enter h contracts max_queries).

(** The [with] block is left when every future was taken, or when
    [future.result()] raised, and no work item is queued or running. *)
Definition completed (p : pool) : bool :=
  match to_submit p, work_queue p, running p with
  | [], [], [] =>
      match failed p, finished p with
      | Some _, _ => true
      | None, [] => true
      | None, _ => false
      end
  | _, _, _ => false
  end.

(** What [process_contracts] gives back from a completed state. *)
Definition process_contracts_result (p : pool) : exn + (list ref * ProcessingStats) :=
  match failed p with
  | Some e => inl e
  | None => inr (processed_contracts p, stats p)
  end.

(** A schedule that runs the tasks one after the other and takes the
    results in submission order. *)
Definition in_order (n : nat) : list action :=
  concat (replicate n [Submit; Start; Finish 0%nat]) ++ replicate n (Collect 0%nat).

End Dispatcher.

(** ** Loader: [process_csv] *)

(** [csv.DictReader] gives one dict for each data row, from the column
    names of the header to the fields of the row; a row is that dict, as
    its list of items.  Reading and splitting the file is the reader's
    work.  The reader gives every row the keys of the header; and it fills
    the missing fields of a row shorter than the header with [None], which
    is outside this type: the rows here are those of a file in which no row
    is shorter than the header. *)
Definition Row : Type := list (string * string).

(** [row[key]] raises [KeyError(key)] when the column is missing. *)
Inductive load_error : Type :=
| KeyError (key : string).

(** [s.startswith(prefix)]. *)
Definition startswith (s prefix : string) : bool := String.prefix prefix s.

(** The body of the loop of [process_csv]: the address with its prefix,
    then the [Contract] built from it. *)
Definition load_row (row : Row) : load_error + Contract :=
  match dict_get row "encode" with
  | None => inl (KeyError "encode")
  | Some encode =>
      let addr := if negb (startswith encode "0x") then "0x" +:+ encode else encode in
      match dict_get row "origin_key" with
      | None => inl (KeyError "origin_key")
      | Some key => inr (seed addr key)
      end
  end.

(** [for row in reader: ... contracts.append(contract)]. *)
Fixpoint process_csv_loop (rows : list Row) (contracts : list Contract)
  : load_error + list Contract :=
  match rows with
  | [] => inr contracts
  | row :: rest =>
      match load_row row with
      | inl e => inl e
      | inr contract => process_csv_loop rest (contracts ++ [contract])
      end
  end.

Definition process_csv (rows : list Row) : load_error + list Contract :=
  process_csv_loop rows [].

(** The objects [process_csv] made, one for each row, known by their
    position in the list it returns. *)
Definition heap_of (contracts : list Contract) : ref -> Contract :=
  fun r => nth r contracts (seed "" "").

(** ** Vocabulary of the specification *)

(** A reply the client retries on: a response whose status is neither 200
    nor 404. *)
Definition transient (r : Reply) : bool :=
  match r with
  | Response status_code _ => negb (status_code =? 200) && negb (status_code =? 404)
  | ConnectionError => false
  end.

(** The events of [k] attempts that each ended in the sleep. *)
Definition attempts (url : string) (k : nat) : list event :=
  concat (replicate k [Get url; Sleep 1]).

(** [s] contains [needle] when case is ignored: some substring of [s]
    lowers to [needle]. *)
Definition icontains (needle s : string) : Prop :=
  exists pre mid post, s = pre +:+ mid +:+ post /\ lower mid = needle.

(** The length of the submitted prefix for a non-negative bound. *)
Definition bounded (len : nat) (max_queries : Z) : Z :=
  Z.min (int_or max_queries (Z.of_nat len)) (Z.of_nat len).

Definition is_collect (a : action) : bool :=
  match a with
  | Collect _ => true
  | _ => false
  end.

Definition is_str (v : PyVal) : bool :=
  match v with
  | VStr _ => true
  | _ => false
  end.

(** The two tests of the mapper on a name that is a [str]. *)
Definition name_says_proxy (v : PyVal) : bool :=
  match v with
  | VStr s => contains "proxy" (lower s) || contains "erc1967" (lower s)
  | _ => false
  end.

(** The record the mapper leaves when it returns. *)
Definition mapped (c : Contract) (d : BlockscoutResponse) : Contract :=
  mkContract (address c)
             (default (chain_id c) (dict_get CHAIN_ID_MAP (origin_key c)))
             (r_name d)
             (owner_project c) (usage_category c) (deployment_tx c) (deployer_address c)
             (if truthy (verified_at d) then verified_at d else deployment_date c)
             (any [ is_verified d; is_fully_verified d; is_partially_verified d;
                    is_verified_via_sourcify d ])
             (truthy (minimal_proxy_address_hash d) || name_says_proxy (r_name d))
             (minimal_proxy_address_hash d)
             (minimal_proxy_address_hash d)
             (sourcify_repo_url d)
             (origin_key c).

(** The record the mapper leaves when [contract.name.lower()] raises: the
    assignments before the test are done, the chain id and the deployment
    date are not reached. *)
Definition half_mapped (c : Contract) (d : BlockscoutResponse) : Contract :=
  mkContract (address c) (chain_id c)
             (r_name d)
             (owner_project c) (usage_category c) (deployment_tx c) (deployer_address c)
             (deployment_date c)
             (any [ is_verified d; is_fully_verified d; is_partially_verified d;
                    is_verified_via_sourcify d ])
             false
             (minimal_proxy_address_hash d)
             (minimal_proxy_address_hash d)
             (sourcify_repo_url d)
             (origin_key c).

(** A world to run one task in: one seed record on a known chain. *)
Definition stub_world : world := mkWorld (fun _ => seed "0xabc" "optimism") [] 0.

(** The response decoded from the body [{"name": null, "is_verified": true}]. *)
Definition null_name_response : BlockscoutResponse :=
  mkResponse (VStr "") VNone (VBool true) (VBool false) (VBool false)
             (VBool false) (VStr "") (VStr "") (VStr "") (VStr "") (VStr "")
             (VStr "") (VDict []).

(** The response decoded from the body [{"name": "MyERC1967Proxy"}]. *)
Definition erc1967_response : BlockscoutResponse :=
  mkResponse (VStr "") (VStr "MyERC1967Proxy") (VBool false) (VBool false) (VBool false)
             (VBool false) (VStr "") (VStr "") (VStr "") (VStr "") (VStr "")
             (VStr "") (VDict []).

(** The records a state of the pool holds, from the results taken to the
    records not yet submitted. *)
Definition in_pool (p : pool) : list ref :=
  processed_contracts p ++ map (fun f => obj (fst f)) (finished p) ++
  map obj (running p) ++ map obj (work_queue p) ++ to_submit p.

(** What every state of a call of [process_contracts] satisfies, for an
    input of [n_input] records of which [slice] is submitted. *)
Record pool_inv (n_input : nat) (slice : list ref) (p : pool) : Prop := mkInv {
  inv_failed : failed p = None;
  inv_results : Forall (fun f => snd f = inr (obj (fst f))) (finished p);
  inv_processed : processed_count (stats p) = Z.of_nat (length (processed_contracts p));
  inv_named : 0 <= contracts_with_name (stats p) <= processed_count (stats p);
  inv_proxies : 0 <= proxy_contracts (stats p) <= processed_count (stats p);
  inv_total : total_contracts (stats p) = Z.of_nat n_input;
  inv_records : in_pool p ≡ₚ slice;
  inv_running : (length (running p) <= threads p)%nat;
  inv_threads : (threads p <= max_workers)%nat;
  inv_idle : threads p = 0%nat -> idle_semaphore p = 0%nat /\ work_queue p = []
}.

(** The work left in a state: every move of a thread takes one off. *)
Definition weight (p : pool) : nat :=
  4 * length (to_submit p) + 3 * length (work_queue p) +
  2 * length (running p) + length (finished p).

(** A small batch: three seed records, the first two on known chains. *)
Definition demo_heap : ref -> Contract := fun r =>
  match r with
  | 0%nat => seed "0xa" "base"
  | 1%nat => seed "0xb" "optimism"
  | _ => seed "0xc" "unknown_chain"
  end.

(** The explorer knows the first record and has a 404 for the others. *)
Definition demo_net : nat -> nat -> Reply := fun t _ =>
  match t with
  | 0%nat => Response 200 (Some (VDict [("name", VStr "Proxy")]))
  | _ => Response 404 None
  end.

Definition demo_clock : nat -> string := fun _ => "0.00 seconds".

(** The state the demo batch ends in when the tasks run one after the
    other. *)
Definition demo_final : pool :=
  Eval vm_compute in
    default (enter demo_heap [] 0)
            (process_contracts demo_net demo_clock demo_heap [0; 1; 2]%nat 0 (in_order 3)).

(** The demo batch with two tasks in flight. *)
Definition demo_in_flight : pool :=
  Eval vm_compute in
    default (enter demo_heap [] 0)
            (process_contracts demo_net demo_clock demo_heap [0; 1; 2]%nat 0
                 [Submit; Submit; Start; Start; Submit]).

(** The demo batch bounded to one record, at its end. *)
Definition demo_bounded_final : pool :=
  Eval vm_compute in
    default (enter demo_heap [] 0)
            (process_contracts demo_net demo_clock demo_heap [0; 1; 2]%nat 1 (in_order 1)).

(** The scenario of one record on optimism that the explorer does not
    know. *)
Definition not_found_final : pool :=
  Eval vm_compute in
    default (enter (fun _ => seed "0xabc123" "optimism") [] 0)
            (process_contracts (fun _ _ => Response 404 None) demo_clock
               (fun _ => seed "0xabc123" "optimism") [0%nat] 0 (in_order 1)).

(** The number of requests among some events. *)
Fixpoint count_gets (evs : list event) : nat :=
  match evs with
  | [] => 0
  | Get _ :: rest => S (count_gets rest)
  | _ :: rest => count_gets rest
  end.

Definition is_print (e : event) : bool :=
  match e with
  | Print _ => true
  | _ => false
  end.

(** A world with nothing in it but the number of requests sent. *)
Definition blank (k : nat) : world := mkWorld (fun _ => seed "" "") [] k.

(** What [fetch_blockscout_data] gives and the events it adds, for a task
    that has sent [k] requests: they depend on nothing else of the world. *)
Definition fetch_result (net : nat -> Reply) (url : string) (n k : nat)
  : exn + BlockscoutResponse :=
  snd (fetch_loop net url n (blank k)).

Definition fetch_events (net : nat -> Reply) (url : string) (n k : nat) : list event :=
  events (fst (fetch_loop net url n (blank k))).

(** The record [process_contract] leaves at the place of [c]. *)
Definition record_after (net : nat -> Reply) (k : nat) (c : Contract) : Contract :=
  match dict_get BLOCKSCOUT_APIS (origin_key c) with
  | Some (String a u) =>
      match fetch_result net (String a u +:+ address c) max_retries k with
      | inl _ => c
      | inr d =>
          if is_str (r_name d) || truthy (minimal_proxy_address_hash d)
          then mapped c d
          else half_mapped c d
      end
  | _ => c
  end.

(** The fields no step of the pipeline assigns. *)
Definition same_identity (c c' : Contract) : Prop :=
  address c' = address c /\ origin_key c' = origin_key c /\
  owner_project c' = owner_project c /\ usage_category c' = usage_category c /\
  deployment_tx c' = deployment_tx c /\ deployer_address c' = deployer_address c.

(** The records whose work item has completed. *)
Definition done (p : pool) : list ref :=
  map (fun f => obj (fst f)) (finished p) ++ processed_contracts p.

(** The work items the executor holds. *)
Definition tasks (p : pool) : list Task :=
  work_queue p ++ running p ++ map fst (finished p).

(** How many of the records [l] satisfy [f] in the store [h]. *)
Definition count_where (f : Contract -> bool) (h : ref -> Contract) (l : list ref) : Z :=
  Z.of_nat (length (List.filter (fun r => f (h r)) l)).

(** The value bound to [key] by the last item of [kwargs] that has it. *)
Fixpoint last_binding (kwargs : list (string * PyVal)) (key : string) : option PyVal :=
  match kwargs with
  | [] => None
  | (k, v) :: rest =>
      match last_binding rest key with
      | Some w => Some w
      | None => if String.eqb k key then Some v else None
      end
  end.

(** The names of the dataclass fields of [BlockscoutResponse]. *)
Definition is_field (key : string) : bool :=
  match setattr_field key VNone response_defaults with
  | Some _ => true
  | None => false
  end.

(** The events [process_contract] adds for the record [c]. *)
Definition events_after (net : nat -> Reply) (k : nat) (c : Contract) : list event :=
  match dict_get BLOCKSCOUT_APIS (origin_key c) with
  | Some (String a u) =>
      let url := String a u +:+ address c in
      fetch_events net url max_retries k ++
      match fetch_result net url max_retries k with
      | inl e =>
          [Print (if is_ValueError e
                  then MsgNotFound (address c) (origin_key c)
                  else MsgError (address c) e)]
      | inr d =>
          if is_str (r_name d) || truthy (minimal_proxy_address_hash d)
          then []
          else [Print (MsgError (address c) AttributeError)]
      end
  | _ => [Print (MsgUnknownOrigin (address c) (origin_key c))]
  end.

(** The work items are the records of the slice, numbered by their
    position. *)
Definition numbered (slice : list ref) (p : pool) : Prop :=
  to_submit p = drop (submitted p) slice /\
  forall t, t ∈ tasks p -> slice !! tid t = Some (obj t).

(** Each record whose work item has completed is what [process_contract]
    makes of the record on entry with the replies to that work item; the
    others are as on entry; and the two counters count the results taken. *)
Definition settled (net : nat -> nat -> Reply) (h : ref -> Contract) (slice : list ref)
    (p : pool) : Prop :=
  (forall r, r ∉ done p -> p_heap p r = h r) /\
  (forall r, r ∈ done p ->
     exists i, slice !! i = Some r /\ p_heap p r = record_after (net i) 0 (h r)) /\
  contracts_with_name (stats p)
    = count_where (fun c => truthy (name c)) (p_heap p) (processed_contracts p) /\
  proxy_contracts (stats p)
    = count_where is_proxy_contract (p_heap p) (processed_contracts p).

(** One loaded record that the explorer does not know, at the end of the
    call. *)
Definition loaded_final : pool :=
  Eval vm_compute in
    default (enter demo_heap [] 0)
            (process_contracts (fun _ _ => Response 404 None) demo_clock
               (heap_of [seed "0xabc123" "optimism"]) (seq 0 1) 0 (in_order 1)).

(** Two rows of a file whose header has no column [origin_key]. *)
Definition rows_without_origin : list Row :=
  [[("encode", "abc123"); ("note", "x")]; [("encode", "0xdef"); ("note", "y")]].

(** * Properties *)

(** ** Strings *)

Lemma prefix_split (n h : string) :
  String.prefix n h = true <-> exists post, h = n +:+ post.
Proof.
  revert h. induction n as [|a n IH]; intros h; simpl.
  - split; [intros _; exists h; reflexivity | intros _; now destruct h].
  - destruct h as [|b h]; simpl.
    + split; [discriminate | intros [post H]; discriminate].
    + destruct (ascii_dec a b) as [->|Hne].
      * rewrite IH. split; intros [post H]; exists post.
        -- now rewrite H.
        -- now injection H.
      * split; [discriminate | intros [post H]; injection H; congruence].
Qed.

Lemma contains_split (n h : string) :
  contains n h = true <-> exists pre post, h = pre +:+ n +:+ post.
Proof.
  induction h as [|b h IH]; cbn [contains].
  - rewrite orb_false_r, prefix_split. split.
    + intros [post H]. exists "", post. exact H.
    + intros [pre [post H]]. destruct pre; [exists post; exact H | discriminate].
  - rewrite orb_true_iff, prefix_split, IH. split.
    + intros [[post H] | [pre [post H]]].
      * exists "", post. exact H.
      * exists (String b pre), post. simpl. now rewrite H.
    + intros [pre [post H]]. destruct pre as [|c pre].
      * left. exists post. exact H.
      * right. exists pre, post. simpl in H. now injection H.
Qed.

Lemma lower_app (s t : string) : lower (s +:+ t) = lower s +:+ lower t.
Proof. induction s as [|a s IH]; simpl; [reflexivity | now rewrite IH]. Qed.

Lemma lower_unapp (x y s : string) :
  lower s = x +:+ y -> exists a b, s = a +:+ b /\ lower a = x /\ lower b = y.
Proof.
  revert s. induction x as [|c x IH]; intros s H; simpl in H.
  - exists "", s. auto.
  - destruct s as [|d s]; [discriminate |]. simpl in H.
    injection H as Hc Hs. destruct (IH _ Hs) as (a & b & -> & Ha & Hb).
    exists (String d a), b. simpl. now rewrite Ha, Hc.
Qed.

Lemma contains_lower (needle s : string) :
  contains needle (lower s) = true <-> icontains needle s.
Proof.
  rewrite contains_split. split.
  - intros (pre & post & H).
    apply lower_unapp in H as (a & b & -> & _ & Hb).
    apply lower_unapp in Hb as (m & c & -> & Hm & _).
    now exists a, m, c.
  - intros (pre & mid & post & -> & Hm).
    exists (lower pre), (lower post). now rewrite !lower_app, Hm.
Qed.

(** ** Explorer client *)

Section Client.

Variable net : nat -> Reply.

Lemma fetch_loop_transient (url : string) (k n : nat) (w : world) :
  (forall j, (j < k)%nat -> transient (net (sent w + j)) = true) ->
  fetch_loop net url (k + n) w =
  fetch_loop net url n (mkWorld (heap w) (events w ++ attempts url k) (sent w + k)).
Proof.
  revert w. induction k as [|k IH]; intros w Hk.
  - simpl. unfold attempts. simpl. rewrite app_nil_r, Nat.add_0_r. now destruct w.
  - pose proof (Hk 0%nat ltac:(lia)) as H0. rewrite Nat.add_0_r in H0.
    change (S k + n)%nat with (S (k + n)). cbn [fetch_loop].
    unfold mbind, M_bind, requests_get.
    destruct (net (sent w)) as [|st body]; [discriminate |].
    simpl in H0. apply andb_true_iff in H0 as [H200 H404].
    cbn [fst snd]. apply negb_true_iff in H200, H404. rewrite H200, H404.
    unfold time_sleep, emit. cbn [heap events sent].
    rewrite IH.
    + cbn [heap events sent]. unfold attempts. cbn [replicate concat].
      f_equal. f_equal; [|lia].
      rewrite <- !app_assoc. reflexivity.
    + intros j Hj. cbn [sent]. replace (S (sent w) + j)%nat with (sent w + S j)%nat by lia.
      apply Hk. lia.
Qed.

End Client.

Section ClientOutcomes.

Variable net : nat -> Reply.

(** The attempt that meets a reply which is not transient ends the call. *)
Lemma fetch_loop_settles (url : string) (n : nat) (w : world) :
  transient (net (sent w)) = false ->
  let w' := mkWorld (heap w) (events w ++ [Get url]) (S (sent w)) in
  match net (sent w) with
  | ConnectionError => fetch_loop net url (S n) w = (w', inl RequestException)
  | Response status_code body =>
      (status_code = 200 /\ fetch_loop net url (S n) w = (w', decode body)) \/
      (status_code = 404 /\
       fetch_loop net url (S n) w = (w', inl (ValueError "Contract not found")))
  end.
Proof.
  intros Ht w'. cbn [fetch_loop]. unfold mbind, M_bind, requests_get.
  destruct (net (sent w)) as [|st body]; [reflexivity |].
  cbn [fst snd]. simpl in Ht.
  destruct (Z.eqb_spec st 200) as [->|H200].
  - left. split; [reflexivity |]. reflexivity.
  - destruct (Z.eqb_spec st 404) as [->|H404]; [|discriminate].
    right. split; reflexivity.
Qed.

Lemma fetch_loop_exhausted (url : string) (w : world) :
  fetch_loop net url 0 w = (w, inl (Exception "Failed to fetch data after 3 retries")).
Proof. reflexivity. Qed.

End ClientOutcomes.

Lemma has_key_none (kwargs : list (string * PyVal)) (key : string) :
  has_key kwargs key = false <->
  Forall (fun item => String.eqb (fst item) key = false) kwargs.
Proof.
  unfold has_key. induction kwargs as [|item rest IH]; cbn.
  - split; [constructor | reflexivity].
  - rewrite orb_false_iff, IH. split.
    + intros [H1 H2]. now constructor.
    + intros H. inversion H. auto.
Qed.

Lemma init_loop_error (kwargs : list (string * PyVal)) (d : BlockscoutResponse) (e : exn) :
  init_loop kwargs d = inl e -> e = TypeError.
Proof.
  revert d. induction kwargs as [|[key value] rest IH]; intros d H; cbn in H.
  - discriminate.
  - destruct (setattr_field key value d) as [d'|]; [now apply (IH d') |].
    destruct (additional_fields d); try (injection H as <-; reflexivity).
    now apply (IH _ H).
Qed.

(** What [decode] raises: the error of [response.json()], or the
    [TypeError] of the construction. *)
Lemma decode_error (body : option PyVal) (e : exn) :
  decode body = inl e -> e = JSONDecodeError \/ e = TypeError.
Proof.
  destruct body as [v|]; cbn; [|intros [= <-]; now left].
  intros H. right.
  destruct v; try (injection H as <-; reflexivity).
  cbn in H. destruct (has_key kv "self"); [now injection H as <- |].
  now apply (init_loop_error _ _ _ H).
Qed.

(** C3, as the code has it.  [fetch_blockscout_data] ends in one of five
    ways, decided by the first of its three replies that is not transient,
    after [k] transient ones that were each followed by a sleep of 1: a 200
    whose body decodes returns the decoded response; a 404 raises
    [ValueError("Contract not found")]; a 200 whose body does not decode
    raises the decoding error; a request that raises ends the call with its
    exception; these four make no further request.  And when the three
    replies are all transient the call raises after exactly 3 requests. *)
Theorem fetch_outcomes (net : nat -> Reply) (api_url addr : string) (w : world) :
  let url := api_url +:+ addr in
  let after k := mkWorld (heap w) (events w ++ attempts url k ++ [Get url]) (S (sent w + k)) in
  (exists k body d,
      (k < 3)%nat /\
      (forall j, (j < k)%nat -> transient (net (sent w + j)%nat) = true) /\
      net (sent w + k)%nat = Response 200 body /\ decode body = inr d /\
      fetch_blockscout_data net api_url addr w = (after k, inr d)) \/
  (exists k body,
      (k < 3)%nat /\
      (forall j, (j < k)%nat -> transient (net (sent w + j)%nat) = true) /\
      net (sent w + k)%nat = Response 404 body /\
      fetch_blockscout_data net api_url addr w =
        (after k, inl (ValueError "Contract not found"))) \/
  ((forall j, (j < 3)%nat -> transient (net (sent w + j)%nat) = true) /\
   fetch_blockscout_data net api_url addr w =
     (mkWorld (heap w)
              (events w ++ [Get url; Sleep 1; Get url; Sleep 1; Get url; Sleep 1])
              (sent w + 3),
      inl (Exception "Failed to fetch data after 3 retries"))) \/
  (exists k body e,
      (k < 3)%nat /\
      (forall j, (j < k)%nat -> transient (net (sent w + j)%nat) = true) /\
      net (sent w + k)%nat = Response 200 body /\ decode body = inl e /\
      (e = JSONDecodeError \/ e = TypeError) /\
      fetch_blockscout_data net api_url addr w = (after k, inl e)) \/
  (exists k,
      (k < 3)%nat /\
      (forall j, (j < k)%nat -> transient (net (sent w + j)%nat) = true) /\
      net (sent w + k)%nat = ConnectionError /\
      fetch_blockscout_data net api_url addr w = (after k, inl RequestException)).
Proof.
  intros url after. unfold fetch_blockscout_data, max_retries. fold url.
  assert (Hfirst : forall k, (k < 3)%nat ->
            (forall j, (j < k)%nat -> transient (net (sent w + j)%nat) = true) ->
            transient (net (sent w + k)%nat) = false ->
            match net (sent w + k)%nat with
            | Response st body =>
                (st = 200 /\ fetch_loop net url 3 w = (after k, decode body)) \/
                (st = 404 /\
                 fetch_loop net url 3 w = (after k, inl (ValueError "Contract not found")))
            | ConnectionError => fetch_loop net url 3 w = (after k, inl RequestException)
            end).
  { intros k Hk Hpre Hnt.
    replace 3%nat with (k + S (2 - k))%nat by lia.
    rewrite (fetch_loop_transient net url k (S (2 - k)) w Hpre).
    pose proof (fetch_loop_settles net url (2 - k)
                  (mkWorld (heap w) (events w ++ attempts url k) (sent w + k))) as Hs.
    cbn [sent heap events] in Hs. specialize (Hs Hnt). unfold after.
    destruct (net (sent w + k)%nat) as [|st body].
    - rewrite Hs, <- app_assoc. reflexivity.
    - destruct Hs as [[-> Hs] | [-> Hs]]; [left | right];
        (split; [reflexivity |]); rewrite Hs, <- app_assoc; reflexivity. }
  assert (Hcase : forall k, (k < 3)%nat ->
            (forall j, (j < k)%nat -> transient (net (sent w + j)%nat) = true) ->
            transient (net (sent w + k)%nat) = false ->
            (exists k body d,
                (k < 3)%nat /\
                (forall j, (j < k)%nat -> transient (net (sent w + j)%nat) = true) /\
                net (sent w + k)%nat = Response 200 body /\ decode body = inr d /\
                fetch_loop net url 3 w = (after k, inr d)) \/
            (exists k body,
                (k < 3)%nat /\
                (forall j, (j < k)%nat -> transient (net (sent w + j)%nat) = true) /\
                net (sent w + k)%nat = Response 404 body /\
                fetch_loop net url 3 w =
                  (after k, inl (ValueError "Contract not found"))) \/
            (exists k body e,
                (k < 3)%nat /\
                (forall j, (j < k)%nat -> transient (net (sent w + j)%nat) = true) /\
                net (sent w + k)%nat = Response 200 body /\ decode body = inl e /\
                (e = JSONDecodeError \/ e = TypeError) /\
                fetch_loop net url 3 w = (after k, inl e)) \/
            (exists k,
                (k < 3)%nat /\
                (forall j, (j < k)%nat -> transient (net (sent w + j)%nat) = true) /\
                net (sent w + k)%nat = ConnectionError /\
                fetch_loop net url 3 w = (after k, inl RequestException))).
  { intros k Hk Hpre Hnt. specialize (Hfirst k Hk Hpre Hnt).
    destruct (net (sent w + k)%nat) as [|st body] eqn:Hnet.
    - right. right. right. exists k. auto.
    - destruct Hfirst as [[-> Hf] | [-> Hf]].
      + destruct (decode body) as [e|d] eqn:Hd.
        * right. right. left. exists k, body, e.
          repeat split; auto. exact (decode_error body e Hd).
        * left. exists k, body, d. auto.
      + right. left. exists k, body. auto. }
  destruct (transient (net (sent w + 0)%nat)) eqn:H0.
  2:{ destruct (Hcase 0%nat) as [H|[H|[H|H]]]; try lia; try assumption; tauto. }
  destruct (transient (net (sent w + 1)%nat)) eqn:H1.
  2:{ assert (Hpre : forall j, (j < 1)%nat -> transient (net (sent w + j)%nat) = true).
      { intros j Hj. replace j with 0%nat by lia. exact H0. }
      destruct (Hcase 1%nat) as [H|[H|[H|H]]]; try lia; try assumption; tauto. }
  destruct (transient (net (sent w + 2)%nat)) eqn:H2.
  2:{ assert (Hpre : forall j, (j < 2)%nat -> transient (net (sent w + j)%nat) = true).
      { intros j Hj. destruct j as [|[|j]]; [exact H0 | exact H1 | lia]. }
      destruct (Hcase 2%nat) as [H|[H|[H|H]]]; try lia; try assumption; tauto. }
  right. right. left.
  assert (Hall : forall j, (j < 3)%nat -> transient (net (sent w + j)%nat) = true).
  { intros j Hj. destruct j as [|[|[|j]]]; [exact H0 | exact H1 | exact H2 | lia]. }
  split; [exact Hall |].
  change 3%nat with (3 + 0)%nat at 1.
  rewrite (fetch_loop_transient net url 3 0 w Hall). reflexivity.
Qed.

(** C3, as stated, fails: there are outcomes besides its three.  A 200
    reply whose body is no JSON ends the call with the decoding error, which
    is neither a decoded response nor one of the two errors of the claim;
    and so does a request that raises, with its exception. *)
Lemma fetch_more_than_three_outcomes_counterexample :
  snd (fetch_blockscout_data (fun _ => Response 200 None) "u/" "0xabc" stub_world)
    = inl JSONDecodeError /\
  sent (fst (fetch_blockscout_data (fun _ => Response 200 None) "u/" "0xabc" stub_world))
    = 1%nat /\
  snd (fetch_blockscout_data (fun _ => ConnectionError) "u/" "0xabc" stub_world)
    = inl RequestException /\
  sent (fst (fetch_blockscout_data (fun _ => ConnectionError) "u/" "0xabc" stub_world))
    = 1%nat /\
  inl JSONDecodeError <> @inl exn BlockscoutResponse (ValueError "Contract not found") /\
  inl JSONDecodeError
    <> @inl exn BlockscoutResponse (Exception "Failed to fetch data after 3 retries") /\
  inl RequestException <> @inl exn BlockscoutResponse (ValueError "Contract not found") /\
  inl RequestException
    <> @inl exn BlockscoutResponse (Exception "Failed to fetch data after 3 retries").
Proof. repeat split; discriminate. Qed.

(** A stub that always answers 503 is called exactly three times. *)
Example always_transient_stub :
  fetch_blockscout_data (fun _ => Response 503 None) "u/" "0xabc" stub_world =
    (mkWorld (heap stub_world)
             [Get "u/0xabc"; Sleep 1; Get "u/0xabc"; Sleep 1; Get "u/0xabc"; Sleep 1] 3,
     inl (Exception "Failed to fetch data after 3 retries")).
Proof. reflexivity. Qed.

(** C6, as the code has it.  A 200 reply whose body does not decode is not
    retried: after [k] transient replies, a 200 reply whose body
    [response.json()] or the response class rejects makes
    [fetch_blockscout_data] raise that decoding error at once, with no
    sleep and no further request. *)
Theorem decode_failure_not_retried (net : nat -> Reply) (api_url addr : string)
    (w : world) (k : nat) (body : option PyVal) (e : exn)
    (Hk : (k < 3)%nat)
    (Hpre : forall j, (j < k)%nat -> transient (net (sent w + j)%nat) = true)
    (Hreply : net (sent w + k)%nat = Response 200 body)
    (Hbody : decode body = inl e) :
  let url := api_url +:+ addr in
  fetch_blockscout_data net api_url addr w =
    (mkWorld (heap w) (events w ++ attempts url k ++ [Get url]) (S (sent w + k)), inl e) /\
  (e = JSONDecodeError \/ e = TypeError).
Proof.
  intros url. split; [|exact (decode_error body e Hbody)].
  unfold fetch_blockscout_data, max_retries. fold url.
  replace 3%nat with (k + S (2 - k))%nat by lia.
  rewrite (fetch_loop_transient net url k (S (2 - k)) w Hpre).
  pose proof (fetch_loop_settles net url (2 - k)
                (mkWorld (heap w) (events w ++ attempts url k) (sent w + k))) as Hs.
  cbn [sent heap events] in Hs. rewrite Hreply in Hs.
  destruct (Hs eq_refl) as [[_ H] | [H _]]; [|discriminate H].
  rewrite H, Hbody, <- app_assoc. reflexivity.
Qed.

(** A body that is no JSON at all, on the second attempt. *)
Lemma decode_failure_not_retried_witness :
  fetch_blockscout_data
    (fun k => match k with O => Response 503 None | _ => Response 200 None end)
    "u/" "0xabc" stub_world =
    (mkWorld (heap stub_world) [Get "u/0xabc"; Sleep 1; Get "u/0xabc"] 2,
     inl JSONDecodeError) /\
  (JSONDecodeError = JSONDecodeError \/ JSONDecodeError = TypeError).
Proof.
  apply (decode_failure_not_retried
           (fun k => match k with O => Response 503 None | _ => Response 200 None end)
           "u/" "0xabc" stub_world 1 None JSONDecodeError).
  - lia.
  - intros j Hj. destruct j; [reflexivity | lia].
  - reflexivity.
  - reflexivity.
Defined.

(** C6, as stated, fails: a stub that always answers 200 with a malformed
    body is called once, and the call ends in the decoding error, not in the
    error of the exhausted retries. *)
Lemma decode_failure_retried_counterexample :
  let out := fetch_blockscout_data (fun _ => Response 200 None) "u/" "0xabc" stub_world in
  snd out = inl JSONDecodeError /\
  sent (fst out) = 1%nat /\
  events (fst out) = [Get "u/0xabc"] /\
  snd out <> inl (Exception "Failed to fetch data after 3 retries").
Proof. repeat split. discriminate. Qed.

(** ** Response mapper *)

Lemma store_same (r : ref) (c : Contract) (h : ref -> Contract) : store r c h r = c.
Proof. unfold store. now rewrite Nat.eqb_refl. Qed.

Lemma store_other (r r' : ref) (c : Contract) (h : ref -> Contract) :
  r' <> r -> store r c h r' = h r'.
Proof. intros H. unfold store. apply Nat.eqb_neq in H. now rewrite H. Qed.

Ltac unfold_mapper :=
  unfold map_blockscout_to_open_labels, mbind, M_bind, mret, M_ret, setattr, getattr, lift;
  cbn [heap events sent]; rewrite ?store_same.

Ltac run_mapper :=
  repeat (cbn [heap events sent negb py_lower name is_proxy_contract origin_key chain_id
               set_name set_verified_status set_source_repo_url set_is_proxy_contract
               set_proxy_address set_implementation_address set_chain_id
               set_deployment_date];
          rewrite ?store_same).

Ltac frame_mapper :=
  eexists; split; [reflexivity |];
  cbn [heap events sent]; rewrite ?store_same;
  split; [| split; [intros; now rewrite ?store_other by assumption | split; reflexivity]].

Lemma map_returns (r : ref) (d : BlockscoutResponse) (w : world) :
  is_str (r_name d) || truthy (minimal_proxy_address_hash d) = true ->
  exists w',
    map_blockscout_to_open_labels r d w = (w', inr r) /\
    heap w' r = mapped (heap w r) d /\
    (forall r', r' <> r -> heap w' r' = heap w r') /\
    events w' = events w /\ sent w' = sent w.
Proof.
  intros H. unfold_mapper. unfold mapped.
  destruct (heap w r) as [a ci n op uc dt da dd vs ip pa ia sr ok].
  destruct (truthy (minimal_proxy_address_hash d)) eqn:Ht; run_mapper.
  - destruct (truthy (verified_at d)); run_mapper; frame_mapper; reflexivity.
  - rewrite orb_false_r in H.
    destruct (r_name d) as [| | | |s| |] eqn:Hn; try discriminate H.
    run_mapper. cbn [name_says_proxy orb].
    destruct (contains "proxy" (lower s)); run_mapper.
    + destruct (truthy (verified_at d)); run_mapper; frame_mapper; reflexivity.
    + destruct (contains "erc1967" (lower s)); run_mapper;
        destruct (truthy (verified_at d)); run_mapper; frame_mapper; reflexivity.
Qed.

Lemma map_raises (r : ref) (d : BlockscoutResponse) (w : world) :
  is_str (r_name d) || truthy (minimal_proxy_address_hash d) = false ->
  exists w',
    map_blockscout_to_open_labels r d w = (w', inl AttributeError) /\
    heap w' r = half_mapped (heap w r) d /\
    (forall r', r' <> r -> heap w' r' = heap w r') /\
    events w' = events w /\ sent w' = sent w.
Proof.
  intros H. apply orb_false_iff in H as [Hs Ht]. unfold_mapper. unfold half_mapped.
  destruct (heap w r) as [a ci n op uc dt da dd vs ip pa ia sr ok].
  rewrite Ht. run_mapper.
  destruct (r_name d) eqn:Hn; try discriminate Hs; run_mapper; frame_mapper; reflexivity.
Qed.

(** C4, as the code has it.  The mapper is a function of the record and
    the response, and what it does is decided by two fields: when the name
    of the response is a [str], or the proxy hash is truthy, it returns the
    record it was given, mapped field by field, and fields missing from the
    body have their defaults; when the name is no [str] (a JSON null, say)
    and the hash is empty, [contract.name.lower()] raises [AttributeError]. *)
Theorem mapper_returns_unless_name_untyped (r : ref) (d : BlockscoutResponse) (w : world) :
  match map_blockscout_to_open_labels r d w with
  | (w', inr r') =>
      r' = r /\ heap w' r = mapped (heap w r) d /\
      is_str (r_name d) || truthy (minimal_proxy_address_hash d) = true
  | (w', inl e) =>
      e = AttributeError /\ heap w' r = half_mapped (heap w r) d /\
      is_str (r_name d) = false /\ truthy (minimal_proxy_address_hash d) = false
  end.
Proof.
  destruct (is_str (r_name d) || truthy (minimal_proxy_address_hash d)) eqn:H.
  - destruct (map_returns r d w H) as (w' & -> & Hh & _). auto.
  - destruct (map_raises r d w H) as (w' & -> & Hh & _).
    apply orb_false_iff in H. tauto.
Qed.

(** C4, as stated, fails: the body [{"name": null, "is_verified": true}]
    decodes to a response on which the mapper raises. *)
Lemma mapper_total_counterexample :
  new_BlockscoutResponse (VDict [("name", VNone); ("is_verified", VBool true)])
    = inr null_name_response /\
  snd (map_blockscout_to_open_labels 0%nat null_name_response stub_world)
    = inl AttributeError.
Proof. split; reflexivity. Qed.

(** C5.  On every record the mapper returns: a truthy (non-empty) proxy
    hash gives [is_proxy_contract = True] whatever the name is; with an
    empty hash, [is_proxy_contract] is [True] exactly when the name is a
    string that contains ["proxy"] or ["erc1967"], case ignored. *)
Theorem proxy_detection (r r' : ref) (d : BlockscoutResponse) (w w' : world)
    (Hmap : map_blockscout_to_open_labels r d w = (w', inr r')) :
  (truthy (minimal_proxy_address_hash d) = true ->
   is_proxy_contract (heap w' r) = true) /\
  (truthy (minimal_proxy_address_hash d) = false ->
   (is_proxy_contract (heap w' r) = true <->
    exists s, r_name d = VStr s /\ (icontains "proxy" s \/ icontains "erc1967" s))).
Proof.
  destruct (is_str (r_name d) || truthy (minimal_proxy_address_hash d)) eqn:Hs.
  2:{ destruct (map_raises r d w Hs) as (w1 & H1 & _). congruence. }
  destruct (map_returns r d w Hs) as (w1 & H1 & Hh & _).
  assert (w1 = w') as -> by congruence.
  rewrite Hh. unfold mapped. cbn [is_proxy_contract]. split.
  - intros ->. reflexivity.
  - intros Ht. rewrite Ht in *. rewrite orb_false_r in Hs. cbn [orb].
    destruct (r_name d) as [| | | |s| |]; try discriminate Hs.
    cbn [name_says_proxy]. rewrite orb_true_iff, !contains_lower. split.
    + intros H. exists s. auto.
    + intros (s' & [= <-] & H). exact H.
Qed.

(** The name ["MyERC1967Proxy"] with an empty hash. *)
Lemma proxy_detection_witness :
  is_proxy_contract
    (heap (fst (map_blockscout_to_open_labels 0%nat erc1967_response stub_world)) 0%nat)
    = true <->
  exists s, VStr "MyERC1967Proxy" = VStr s /\ (icontains "proxy" s \/ icontains "erc1967" s).
Proof.
  apply (proj2 (proxy_detection 0%nat 0%nat erc1967_response stub_world
                  (fst (map_blockscout_to_open_labels 0%nat erc1967_response stub_world))
                  eq_refl)).
  reflexivity.
Defined.

Example proxy_by_name :
  is_proxy_contract (mapped (seed "0xabc" "base") erc1967_response) = true.
Proof. reflexivity. Qed.

Example no_proxy_token :
  is_proxy_contract
    (mapped (seed "0xabc" "base")
            (mkResponse (VStr "") (VStr "Token") (VBool false) (VBool false) (VBool false)
                        (VBool false) (VStr "") (VStr "") (VStr "") (VStr "") (VStr "")
                        (VStr "") (VDict []))) = false.
Proof. reflexivity. Qed.

Example proxy_by_hash_whatever_the_name :
  is_proxy_contract
    (mapped (seed "0xabc" "base")
            (mkResponse (VStr "") VNone (VBool false) (VBool false) (VBool false)
                        (VBool false) (VStr "") (VStr "0x3d602d80") (VStr "") (VStr "")
                        (VStr "") (VStr "") (VDict []))) = true.
Proof. reflexivity. Qed.

Example base_scenario :
  let c := mapped (seed "0xabc" "base")
             (mkResponse (VStr "") (VStr "ERC1967Proxy") (VBool true) (VBool false)
                         (VBool false) (VBool false) (VStr "") (VStr "") (VStr "")
                         (VStr "") (VStr "") (VStr "") (VDict [])) in
  verified_status c = true /\ is_proxy_contract c = true /\ chain_id c = "eip155-8453".
Proof. vm_compute. auto. Qed.

(** ** The unit of work *)

Section Unit.

Variable net : nat -> Reply.

Lemma fetch_loop_heap (url : string) (n : nat) (w : world) :
  heap (fst (fetch_loop net url n w)) = heap w.
Proof.
  revert w. induction n as [|n IH]; intros w; [reflexivity |].
  cbn [fetch_loop]. unfold mbind, M_bind, requests_get.
  destruct (net (sent w)) as [|st body]; [reflexivity |]. cbn [fst snd].
  destruct (st =? 200); [reflexivity |].
  destruct (st =? 404); [reflexivity |].
  unfold time_sleep, emit. cbn [heap events sent]. now rewrite IH.
Qed.

(** [process_contract] returns the record it was given, whatever the
    explorer answers: no exception leaves it. *)
Lemma process_contract_returns (r : ref) (w : world) :
  exists w', process_contract net r w = (w', inr r).
Proof.
  unfold process_contract, mbind, M_bind, mret, M_ret, getattr, try_except, print, emit.
  destruct (dict_get BLOCKSCOUT_APIS (origin_key (heap w r))) as [[|a u]|]; try (eexists; reflexivity).
  destruct (fetch_blockscout_data net (String a u) (address (heap w r)) w) as [w1 [e|d]].
  - destruct (is_ValueError e); eexists; reflexivity.
  - destruct (is_str (r_name d) || truthy (minimal_proxy_address_hash d)) eqn:H.
    + destruct (map_returns r d w1 H) as (w2 & -> & _). eexists; reflexivity.
    + destruct (map_raises r d w1 H) as (w2 & -> & _). cbn [is_ValueError].
      eexists; reflexivity.
Qed.

(** The failures that leave the record as it was: an origin key the
    registry does not know (no request is sent), and any exception of
    [fetch_blockscout_data]. *)
Lemma process_contract_unknown_origin (r : ref) (w : world) :
  dict_get BLOCKSCOUT_APIS (origin_key (heap w r)) = None ->
  process_contract net r w =
    (mkWorld (heap w)
             (events w ++ [Print (MsgUnknownOrigin (address (heap w r)) (origin_key (heap w r)))])
             (sent w),
     inr r).
Proof.
  intros H. unfold process_contract, mbind, M_bind, mret, M_ret, getattr, print, emit.
  rewrite H. reflexivity.
Qed.

Lemma process_contract_fetch_failure (r : ref) (w w1 : world) (api_url : string) (e : exn) :
  dict_get BLOCKSCOUT_APIS (origin_key (heap w r)) = Some api_url ->
  fetch_blockscout_data net api_url (address (heap w r)) w = (w1, inl e) ->
  exists w', process_contract net r w = (w', inr r) /\ heap w' = heap w.
Proof.
  intros Hk Hf.
  assert (Hh : heap w1 = heap w).
  { pose proof (fetch_loop_heap (api_url +:+ address (heap w r)) max_retries w) as H.
    unfold fetch_blockscout_data in Hf. now rewrite Hf in H. }
  unfold process_contract, mbind, M_bind, mret, M_ret, getattr, try_except, print, emit.
  rewrite Hk. destruct api_url as [|a u].
  - eexists. split; reflexivity.
  - rewrite Hf. destruct (is_ValueError e); eexists; (split; [reflexivity | exact Hh]).
Qed.

End Unit.

(** ** Dispatcher *)

Section Pool.

Variable net : nat -> nat -> Reply.
Variable clock : nat -> string.

Lemma pool_inv_enter (h : ref -> Contract) (contracts : list ref) (max_queries : Z) :
  pool_inv (length contracts)
           (to_submit (enter h contracts max_queries))
           (enter h contracts max_queries).
Proof.
  constructor; cbn; try reflexivity; try lia; auto.
Qed.

Lemma pool_inv_step (n : nat) (slice : list ref) (a : action) (p p' : pool) :
  pool_inv n slice p -> step net clock a p = Some p' -> pool_inv n slice p'.
Proof.
  intros [Hf Hres Hpc Hnm Hpx Htot Hrec Hrun Hthr Hidle] Hstep.
  unfold in_pool in Hrec.
  destruct a as [| |i|i]; cbn [step] in Hstep.
  - (* Submit *)
    destruct (to_submit p) as [|c rest] eqn:Hts; [discriminate |].
    destruct (idle_semaphore p) as [|idle] eqn:Hid.
    + destruct (threads p <? max_workers)%nat eqn:Hlt;
        [apply Nat.ltb_lt in Hlt | apply Nat.ltb_ge in Hlt];
        injection Hstep as <-; constructor; cbn; auto; try lia;
        try (unfold in_pool; cbn; rewrite map_app; cbn;
             rewrite <- (app_assoc (map obj (work_queue p))); exact Hrec).
      unfold max_workers in *. lia.
    + injection Hstep as <-; constructor; cbn; auto; try lia.
      unfold in_pool; cbn; rewrite map_app; cbn.
      rewrite <- (app_assoc (map obj (work_queue p))). exact Hrec.
  - (* Start *)
    destruct (work_queue p) as [|t queue] eqn:Hq; [discriminate |].
    destruct (length (running p) <? threads p)%nat eqn:Hlt; [|discriminate].
    apply Nat.ltb_lt in Hlt.
    injection Hstep as <-; constructor; cbn; auto; try lia.
    + unfold in_pool; cbn. rewrite map_app; cbn.
      rewrite <- (app_assoc (map obj (running p))). exact Hrec.
    + rewrite length_app. cbn. lia.
  - (* Finish *)
    destruct (running p !! i) as [t|] eqn:Hi; [|discriminate].
    destruct (process_contract_returns (net (tid t)) (obj t)
                (mkWorld (p_heap p) (p_events p) 0)) as (w & Hw).
    rewrite Hw in Hstep. injection Hstep as <-; constructor; cbn; auto; try lia.
    + apply Forall_app. split; [exact Hres |]. constructor; [reflexivity | constructor].
    + unfold in_pool; cbn. rewrite <- Hrec.
      apply Permutation_app_head.
      rewrite map_app; cbn. rewrite <- app_assoc. apply Permutation_app_head. cbn.
      rewrite (delete_Permutation _ _ _ Hi) at 2. reflexivity.
    + rewrite length_delete by eauto. lia.
    + intros H0. apply lookup_lt_Some in Hi. lia.
  - (* Collect *)
    destruct (to_submit p) as [|] eqn:Hts; [|discriminate].
    rewrite Hf in Hstep.
    destruct (finished p !! i) as [[t result]|] eqn:Hi; [|discriminate].
    pose proof (Forall_lookup_1 _ _ _ _ Hres Hi) as Hr. cbn in Hr. subst result.
    injection Hstep as <-. unfold observe. constructor; cbn; auto.
    + now apply Forall_delete.
    + rewrite length_app. cbn. lia.
    + destruct (truthy _); lia.
    + destruct (is_proxy_contract _); lia.
    + unfold in_pool; cbn. rewrite <- Hrec.
      rewrite <- app_assoc. apply Permutation_app_head. cbn.
      rewrite (delete_Permutation _ _ _ Hi) at 2. reflexivity.
Qed.

Lemma pool_inv_exec (n : nat) (slice : list ref) (acts : list action) (p p' : pool) :
  pool_inv n slice p -> exec net clock acts p = Some p' -> pool_inv n slice p'.
Proof.
  revert p. induction acts as [|a acts IH]; intros p Hinv Hexec; cbn in Hexec.
  - now injection Hexec as <-.
  - destruct (step net clock a p) as [p1|] eqn:Hstep; [|discriminate].
    eapply IH; [|exact Hexec]. eapply pool_inv_step; eauto.
Qed.

Lemma pool_inv_reachable (h : ref -> Contract) (contracts : list ref) (max_queries : Z)
    (acts : list action) (p : pool) :
  process_contracts net clock h contracts max_queries acts = Some p ->
  pool_inv (length contracts) (to_submit (enter h contracts max_queries)) p.
Proof. intros H. eapply pool_inv_exec; [apply pool_inv_enter | exact H]. Qed.

(** No deadlock: in a state that is not completed some thread can move. *)
Lemma pool_progress (n : nat) (slice : list ref) (p : pool) :
  pool_inv n slice p -> completed p = false ->
  exists a p', step net clock a p = Some p'.
Proof.
  intros [Hf Hres Hpc Hnm Hpx Htot Hrec Hrun Hthr Hidle] Hc.
  unfold completed in Hc.
  destruct (to_submit p) as [|c rest] eqn:Hts.
  2:{ exists Submit. cbn [step]. rewrite Hts.
      destruct (idle_semaphore p); eexists; reflexivity. }
  destruct (running p) as [|t run'] eqn:Hr.
  - destruct (work_queue p) as [|t queue] eqn:Hq.
    + rewrite Hf in Hc. destruct (finished p) as [|[t result] fin] eqn:Hfin; [discriminate |].
      exists (Collect 0). cbn [step]. rewrite Hts, Hf, Hfin. cbn.
      destruct result; eexists; reflexivity.
    + exists Start. cbn [step]. rewrite Hq, Hr. cbn [length].
      destruct (threads p) as [|k] eqn:Hk.
      * destruct (Hidle eq_refl) as [_ H]. discriminate H.
      * eexists; reflexivity.
  - exists (Finish 0). cbn [step]. rewrite Hr. cbn.
    destruct (process_contract (net (tid t)) (obj t) _) as [w result].
    eexists; reflexivity.
Qed.

(** Every move takes one off the work left. *)
Lemma step_weight (a : action) (p p' : pool) :
  step net clock a p = Some p' -> (weight p' < weight p)%nat.
Proof.
  intros Hstep. unfold weight. destruct a as [| |i|i]; cbn [step] in Hstep.
  - destruct (to_submit p) as [|c rest]; [discriminate |].
    destruct (idle_semaphore p); injection Hstep as <-; cbn; rewrite length_app; cbn; lia.
  - destruct (work_queue p) as [|t queue]; [discriminate |].
    destruct (_ <? _)%nat; [|discriminate].
    injection Hstep as <-; cbn; rewrite length_app; cbn; lia.
  - destruct (running p !! i) as [t|] eqn:Hi; [|discriminate].
    destruct (process_contract _ _ _) as [w result].
    injection Hstep as <-; cbn. pose proof (lookup_lt_Some _ _ _ Hi).
    rewrite length_app, length_delete by eauto. cbn. lia.
  - destruct (to_submit p); [|discriminate].
    destruct (failed p); [discriminate |].
    destruct (finished p !! i) as [[t result]|] eqn:Hi; [|discriminate].
    pose proof (lookup_lt_Some _ _ _ Hi).
    destruct result; injection Hstep as <-; cbn; rewrite length_delete by eauto; lia.
Qed.

(** Every call can run to completion. *)
Lemma pool_completes (n : nat) (slice : list ref) (p : pool) :
  pool_inv n slice p ->
  exists acts p', exec net clock acts p = Some p' /\ completed p' = true.
Proof.
  remember (weight p) as k eqn:Hk. revert p Hk.
  induction k as [k IH] using lt_wf_ind. intros p Hk Hinv.
  destruct (completed p) eqn:Hc.
  - exists [], p. split; [reflexivity | exact Hc].
  - destruct (pool_progress n slice p Hinv Hc) as (a & p1 & Hstep).
    destruct (IH (weight p1)) with (p := p1) as (acts & p' & Hexec & Hdone).
    + subst k. eapply step_weight; eauto.
    + reflexivity.
    + eapply pool_inv_step; eauto.
    + exists (a :: acts), p'. cbn. rewrite Hstep. auto.
Qed.

(** A completed call returns, and what it returns is the submitted records,
    each once, in the order the results were taken. *)
Lemma completed_output (n : nat) (slice : list ref) (p : pool) :
  pool_inv n slice p -> completed p = true ->
  process_contracts_result p = inr (processed_contracts p, stats p) /\
  processed_contracts p ≡ₚ slice.
Proof.
  intros [Hf Hres Hpc Hnm Hpx Htot Hrec Hrun Hthr Hidle] Hc.
  unfold process_contracts_result. rewrite Hf. split; [reflexivity |].
  unfold completed in Hc. rewrite Hf in Hc. unfold in_pool in Hrec.
  destruct (to_submit p); [|discriminate].
  destruct (work_queue p); [|discriminate].
  destruct (running p); [|discriminate].
  destruct (finished p); [|discriminate].
  cbn in Hrec. now rewrite app_nil_r in Hrec.
Qed.

Lemma exec_weight (acts : list action) (p p' : pool) :
  exec net clock acts p = Some p' -> (length acts + weight p' <= weight p)%nat.
Proof.
  revert p. induction acts as [|a acts IH]; intros p Hexec; cbn in Hexec.
  - injection Hexec as <-. cbn. lia.
  - destruct (step net clock a p) as [p1|] eqn:Hstep; [|discriminate].
    apply IH in Hexec. apply step_weight in Hstep. cbn [length]. lia.
Qed.

Lemma slice_to_length {A} (l : list A) (stop : Z) :
  (length (slice_to l stop) <= length l)%nat.
Proof. unfold slice_to. destruct (stop <? 0); rewrite length_take; lia. Qed.

(** A call makes at most four moves for each record, and while it is not
    completed some thread can move: it neither hangs nor runs for ever. *)
Lemma call_terminates (h : ref -> Contract) (contracts : list ref) (max_queries : Z)
    (acts : list action) (p : pool) :
  process_contracts net clock h contracts max_queries acts = Some p ->
  (length acts <= 4 * length contracts)%nat /\
  (completed p = false -> exists a p', step net clock a p = Some p').
Proof.
  intros Hrun. split.
  - apply exec_weight in Hrun. unfold weight at 2 in Hrun. cbn in Hrun.
    pose proof (slice_to_length contracts (int_or max_queries (Z.of_nat (length contracts)))).
    lia.
  - apply (pool_progress _ _ _ (pool_inv_reachable _ _ _ _ _ Hrun)).
Qed.

End Pool.

(** ** The slice *)

Lemma slice_to_bounded {A} (l : list A) (max_queries : Z) :
  0 <= max_queries ->
  slice_to l (int_or max_queries (Z.of_nat (length l))) =
  take (Z.to_nat (bounded (length l) max_queries)) l.
Proof.
  intros H. unfold slice_to, bounded, int_or.
  destruct (Z.eqb_spec max_queries 0) as [->|Hne].
  - destruct (Z.ltb_spec (Z.of_nat (length l)) 0); [lia |].
    now rewrite Z.min_id.
  - destruct (Z.ltb_spec max_queries 0); [lia |].
    destruct (Z.le_ge_cases max_queries (Z.of_nat (length l))).
    + now rewrite Z.min_l.
    + rewrite Z.min_r by lia. rewrite Nat2Z.id.
      rewrite !take_ge by lia. reflexivity.
Qed.

Lemma slice_to_negative {A} (l : list A) (max_queries : Z) :
  max_queries < 0 ->
  slice_to l (int_or max_queries (Z.of_nat (length l))) =
  take (length l - Z.to_nat (Z.abs max_queries)) l.
Proof.
  intros H. unfold slice_to, int_or.
  destruct (Z.eqb_spec max_queries 0); [lia |].
  destruct (Z.ltb_spec max_queries 0); [|lia].
  f_equal. lia.
Qed.

(** ** The claims on the dispatcher *)

(** C1.  For a bound [max_queries >= 0], a call of [process_contracts] runs
    to completion: a completing schedule exists, no schedule is longer than
    four moves for each record, and a call that is not completed can go on.
    Every completed call returns a list of
    [min(max_queries or len(contracts), len(contracts))] records that holds
    each record of the submitted prefix exactly once. *)
Theorem output_is_bounded_prefix (net : nat -> nat -> Reply) (clock : nat -> string)
    (h : ref -> Contract) (contracts : list ref) (max_queries : Z)
    (Hmax : 0 <= max_queries) :
  (exists acts p,
      process_contracts net clock h contracts max_queries acts = Some p /\
      completed p = true) /\
  (forall acts p,
      process_contracts net clock h contracts max_queries acts = Some p ->
      (length acts <= 4 * length contracts)%nat /\
      (completed p = false -> exists a p', step net clock a p = Some p') /\
      (completed p = true ->
       process_contracts_result p = inr (processed_contracts p, stats p) /\
       Z.of_nat (length (processed_contracts p)) = bounded (length contracts) max_queries /\
       processed_contracts p ≡ₚ
         take (Z.to_nat (bounded (length contracts) max_queries)) contracts)).
Proof.
  split.
  - apply (pool_completes net clock _ _ _ (pool_inv_enter h contracts max_queries)).
  - intros acts p Hrun.
    destruct (call_terminates net clock _ _ _ _ _ Hrun) as [Hlen Hgo].
    split; [exact Hlen |]. split; [exact Hgo |]. intros Hc.
    pose proof (pool_inv_reachable net clock _ _ _ _ _ Hrun) as Hinv.
    destruct (completed_output _ _ _ Hinv Hc) as [Hres Hperm].
    cbn [enter to_submit] in Hperm. rewrite slice_to_bounded in Hperm by exact Hmax.
    split; [exact Hres |]. split; [|exact Hperm].
    rewrite Hperm, length_take. unfold bounded, int_or.
    destruct (max_queries =? 0); lia.
Qed.

(** Three records, bounded to two. *)
Lemma output_is_bounded_prefix_witness :
  (exists acts p,
      process_contracts demo_net demo_clock demo_heap [0; 1; 2]%nat 2 acts = Some p /\
      completed p = true) /\
  (forall acts p,
      process_contracts demo_net demo_clock demo_heap [0; 1; 2]%nat 2 acts = Some p ->
      (length acts <= 4 * 3)%nat /\
      (completed p = false -> exists a p', step demo_net demo_clock a p = Some p') /\
      (completed p = true ->
       process_contracts_result p = inr (processed_contracts p, stats p) /\
       Z.of_nat (length (processed_contracts p)) = bounded 3 2 /\
       processed_contracts p ≡ₚ take (Z.to_nat (bounded 3 2)) [0; 1; 2]%nat)).
Proof.
  apply (output_is_bounded_prefix demo_net demo_clock demo_heap [0; 1; 2]%nat 2).
  lia.
Defined.

Example bounded_prefix_run :
  option_map processed_contracts
    (process_contracts demo_net demo_clock demo_heap [0; 1; 2]%nat 2
       [Submit; Submit; Start; Start; Finish 1; Collect 0; Finish 0; Collect 0]%nat)
    = Some [1; 0]%nat.
Proof. vm_compute. reflexivity. Qed.

(** C7.  In every state of a call, completed or not, [processed_count] is
    the length of the result list and bounds the two other counters; and a
    move of a thread changes the counters only when a result is taken:
    then [processed_count] grows by one and the others by at most one. *)
Theorem stats_counters (net : nat -> nat -> Reply) (clock : nat -> string)
    (h : ref -> Contract) (contracts : list ref) (max_queries : Z)
    (acts : list action) (p : pool)
    (Hrun : process_contracts net clock h contracts max_queries acts = Some p) :
  processed_count (stats p) = Z.of_nat (length (processed_contracts p)) /\
  0 <= contracts_with_name (stats p) <= processed_count (stats p) /\
  0 <= proxy_contracts (stats p) <= processed_count (stats p) /\
  forall a p', step net clock a p = Some p' ->
    let d := if is_collect a then 1 else 0 in
    processed_count (stats p') = processed_count (stats p) + d /\
    contracts_with_name (stats p) <= contracts_with_name (stats p')
      <= contracts_with_name (stats p) + d /\
    proxy_contracts (stats p) <= proxy_contracts (stats p')
      <= proxy_contracts (stats p) + d.
Proof.
  pose proof (pool_inv_reachable net clock _ _ _ _ _ Hrun) as Hinv.
  destruct Hinv as [Hf Hres Hpc Hnm Hpx Htot Hrec Hrun' Hthr Hidle].
  repeat (split; [assumption || lia |]).
  intros a p' Hstep. destruct a as [| |i|i]; cbn [step is_collect] in *.
  - destruct (to_submit p); [discriminate |].
    destruct (idle_semaphore p); injection Hstep as <-; cbn; lia.
  - destruct (work_queue p); [discriminate |].
    destruct (_ <? _)%nat; [|discriminate]. injection Hstep as <-; cbn; lia.
  - destruct (running p !! i); [|discriminate].
    destruct (process_contract _ _ _). injection Hstep as <-; cbn; lia.
  - destruct (to_submit p); [|discriminate]. rewrite Hf in Hstep.
    destruct (finished p !! i) as [[t result]|] eqn:Hi; [|discriminate].
    pose proof (Forall_lookup_1 _ _ _ _ Hres Hi) as Hr. cbn in Hr. subst result.
    injection Hstep as <-. unfold observe; cbn.
    destruct (truthy _), (is_proxy_contract _); lia.
Qed.

Lemma stats_counters_witness :
  stats demo_final = mkStats 3 3 1 1 "0.00 seconds" /\
  processed_count (stats demo_final) = Z.of_nat (length (processed_contracts demo_final)) /\
  0 <= contracts_with_name (stats demo_final) <= processed_count (stats demo_final) /\
  0 <= proxy_contracts (stats demo_final) <= processed_count (stats demo_final).
Proof.
  split; [reflexivity |].
  pose proof (stats_counters demo_net demo_clock demo_heap [0; 1; 2]%nat 0 (in_order 3)
                demo_final ltac:(vm_compute; reflexivity)) as H.
  tauto.
Defined.

(** C8, as the code has it.  In every state of a call the total counter is
    the length of the whole input list, whatever [max_queries] is; the
    number of records submitted is at most that, and is that exactly when
    [max_queries] is 0 or not below the length of the input (or the input is
    empty). *)
Theorem total_counts_whole_input (net : nat -> nat -> Reply) (clock : nat -> string)
    (h : ref -> Contract) (contracts : list ref) (max_queries : Z)
    (acts : list action) (p : pool)
    (Hrun : process_contracts net clock h contracts max_queries acts = Some p) :
  let submitted_prefix := slice_to contracts (int_or max_queries (Z.of_nat (length contracts))) in
  total_contracts (stats p) = Z.of_nat (length contracts) /\
  Z.of_nat (length submitted_prefix) <= total_contracts (stats p) /\
  (Z.of_nat (length submitted_prefix) = total_contracts (stats p) <->
   max_queries = 0 \/ Z.of_nat (length contracts) <= max_queries \/ contracts = []).
Proof.
  intros submitted_prefix.
  pose proof (pool_inv_reachable net clock _ _ _ _ _ Hrun) as Hinv.
  rewrite (inv_total _ _ _ Hinv). split; [reflexivity |].
  assert (Hnil : contracts = [] <-> length contracts = 0%nat).
  { destruct contracts; cbn; split; congruence. }
  rewrite Hnil. subst submitted_prefix. unfold slice_to, int_or.
  destruct (Z.eqb_spec max_queries 0) as [->|Hne].
  - destruct (Z.ltb_spec (Z.of_nat (length contracts)) 0); [lia |].
    rewrite length_take. lia.
  - destruct (Z.ltb_spec max_queries 0); rewrite length_take; lia.
Qed.

Lemma total_counts_whole_input_witness :
  total_contracts (stats demo_bounded_final) = 3 /\
  Z.of_nat (length (slice_to [0; 1; 2]%nat (int_or 1 3))) <= 3 /\
  (Z.of_nat (length (slice_to [0; 1; 2]%nat (int_or 1 3))) = 3 <->
   1 = 0 \/ 3 <= 1 \/ [0; 1; 2]%nat = []).
Proof.
  exact (total_counts_whole_input demo_net demo_clock demo_heap [0; 1; 2]%nat 1
           (in_order 1) demo_bounded_final ltac:(vm_compute; reflexivity)).
Defined.

(** C8, as stated, fails: with three records and [max_queries = 1] one
    record is submitted and returned, and the total counter is 3. *)
Lemma total_is_submitted_counterexample :
  process_contracts demo_net demo_clock demo_heap [0; 1; 2]%nat 1 (in_order 1) = Some demo_bounded_final /\
  completed demo_bounded_final = true /\
  submitted demo_bounded_final = 1%nat /\
  length (processed_contracts demo_bounded_final) = 1%nat /\
  total_contracts (stats demo_bounded_final) = 3 /\
  total_contracts (stats demo_bounded_final)
    <> Z.of_nat (length (slice_to [0; 1; 2]%nat (int_or 1 3))).
Proof. vm_compute. repeat split; discriminate. Qed.

(** C9.  In every state of a call at most 50 work items are being run:
    a work item is run by a worker thread, a thread runs one item at a time,
    and the executor made with [max_workers=50] starts a thread only while
    fewer than 50 exist. *)
Theorem in_flight_bound (net : nat -> nat -> Reply) (clock : nat -> string)
    (h : ref -> Contract) (contracts : list ref) (max_queries : Z)
    (acts : list action) (p : pool)
    (Hrun : process_contracts net clock h contracts max_queries acts = Some p) :
  (length (running p) <= threads p)%nat /\ (threads p <= 50)%nat.
Proof.
  pose proof (pool_inv_reachable net clock _ _ _ _ _ Hrun) as Hinv.
  split; [exact (inv_running _ _ _ Hinv) | exact (inv_threads _ _ _ Hinv)].
Qed.

Lemma in_flight_bound_witness :
  (length (running demo_in_flight) <= threads demo_in_flight)%nat /\
  (threads demo_in_flight <= 50)%nat.
Proof.
  exact (in_flight_bound demo_net demo_clock demo_heap [0; 1; 2]%nat 0
           [Submit; Submit; Start; Start; Submit] demo_in_flight
           ltac:(vm_compute; reflexivity)).
Defined.

(** C10.  For a negative [max_queries] the slice drops the last
    [|max_queries|] records: a call runs to completion, and every completed
    call returns, without an exception, the records before those, each once;
    their number is [max(0, len(contracts) - |max_queries|)], which for an
    input that is not empty is less than the whole input. *)
Theorem negative_bound_drops_tail (net : nat -> nat -> Reply) (clock : nat -> string)
    (h : ref -> Contract) (contracts : list ref) (max_queries : Z)
    (Hneg : max_queries < 0) :
  (exists acts p,
      process_contracts net clock h contracts max_queries acts = Some p /\
      completed p = true) /\
  (forall acts p,
      process_contracts net clock h contracts max_queries acts = Some p ->
      (length acts <= 4 * length contracts)%nat /\
      (completed p = false -> exists a p', step net clock a p = Some p') /\
      (completed p = true ->
       process_contracts_result p = inr (processed_contracts p, stats p) /\
       Z.of_nat (length (processed_contracts p))
         = Z.max 0 (Z.of_nat (length contracts) - Z.abs max_queries) /\
       processed_contracts p ≡ₚ
         take (length contracts - Z.to_nat (Z.abs max_queries)) contracts /\
       (contracts <> [] -> (length (processed_contracts p) < length contracts)%nat))).
Proof.
  split.
  - apply (pool_completes net clock _ _ _ (pool_inv_enter h contracts max_queries)).
  - intros acts p Hrun.
    destruct (call_terminates net clock _ _ _ _ _ Hrun) as [Hlen Hgo].
    split; [exact Hlen |]. split; [exact Hgo |]. intros Hc.
    pose proof (pool_inv_reachable net clock _ _ _ _ _ Hrun) as Hinv.
    destruct (completed_output _ _ _ Hinv Hc) as [Hres Hperm].
    cbn [enter to_submit] in Hperm. rewrite slice_to_negative in Hperm by exact Hneg.
    split; [exact Hres |].
    assert (Hout : length (processed_contracts p)
                   = (length contracts - Z.to_nat (Z.abs max_queries))%nat).
    { rewrite Hperm, length_take. lia. }
    split; [lia |]. split; [exact Hperm |].
    intros Hne. destruct contracts; [congruence |]. cbn in *. lia.
Qed.

(** Three records and [max_queries = -1]. *)
Lemma negative_bound_drops_tail_witness :
  (exists acts p,
      process_contracts demo_net demo_clock demo_heap [0; 1; 2]%nat (-1) acts = Some p /\
      completed p = true) /\
  (forall acts p,
      process_contracts demo_net demo_clock demo_heap [0; 1; 2]%nat (-1) acts = Some p ->
      (length acts <= 4 * 3)%nat /\
      (completed p = false -> exists a p', step demo_net demo_clock a p = Some p') /\
      (completed p = true ->
       process_contracts_result p = inr (processed_contracts p, stats p) /\
       Z.of_nat (length (processed_contracts p)) = Z.max 0 (3 - Z.abs (-1)) /\
       processed_contracts p ≡ₚ take (3 - Z.to_nat (Z.abs (-1))) [0; 1; 2]%nat /\
       ([0; 1; 2]%nat <> [] -> (length (processed_contracts p) < 3)%nat))).
Proof.
  apply (negative_bound_drops_tail demo_net demo_clock demo_heap [0; 1; 2]%nat (-1)).
  lia.
Defined.

Example negative_bound_run :
  option_map processed_contracts
    (process_contracts demo_net demo_clock demo_heap [0; 1; 2]%nat (-1) (in_order 2)) = Some [0; 1]%nat /\
  option_map processed_contracts
    (process_contracts demo_net demo_clock demo_heap [0; 1; 2]%nat (-5) (in_order 0)) = Some [].
Proof. vm_compute. split; reflexivity. Qed.

Example not_found_scenario :
  process_contracts (fun _ _ => Response 404 None) demo_clock
    (fun _ => seed "0xabc123" "optimism") [0%nat] 0 (in_order 1) = Some not_found_final /\
  completed not_found_final = true /\
  processed_contracts not_found_final = [0%nat] /\
  p_heap not_found_final 0%nat = seed "0xabc123" "optimism" /\
  stats not_found_final = mkStats 1 1 0 0 "0.00 seconds".
Proof. vm_compute. repeat split. Qed.

Example unknown_origin_scenario :
  let out := process_contract (fun _ => Response 200 None) 0%nat
               (mkWorld (fun _ => seed "0xabc" "unknown_chain") [] 0) in
  snd out = inr 0%nat /\
  heap (fst out) 0%nat = seed "0xabc" "unknown_chain" /\
  chain_id (heap (fst out) 0%nat) = "unknown_chain" /\
  events (fst out) = [Print (MsgUnknownOrigin "0xabc" "unknown_chain")] /\
  sent (fst out) = 0%nat.
Proof. vm_compute. repeat split. Qed.

(** ** The unit of work on a failing mapping *)

(** C2, where the code departs from it.  The explorer answers 200 with the
    body [{"name": null, "is_verified": true}]; the mapper raises in the
    middle of its assignments, [process_contract] catches the exception and
    returns the record: not as it was, but with the name and the
    verification status already overwritten. *)
Theorem mapping_failure_leaves_partial_update :
  let net := fun _ : nat =>
    Response 200 (Some (VDict [("name", VNone); ("is_verified", VBool true)])) in
  let out := process_contract net 0%nat stub_world in
  snd out = inr 0%nat /\
  events (fst out) =
    [Get "https://optimism.blockscout.com/api/v2/smart-contracts/0xabc";
     Print (MsgError "0xabc" AttributeError)] /\
  heap (fst out) 0%nat = half_mapped (seed "0xabc" "optimism") null_name_response /\
  name (heap (fst out) 0%nat) = VNone /\
  verified_status (heap (fst out) 0%nat) = true /\
  chain_id (heap (fst out) 0%nat) = "optimism" /\
  heap (fst out) 0%nat <> heap stub_world 0%nat.
Proof. vm_compute. repeat split. discriminate. Qed.

(** * Further properties of the code *)

(** ** Loader *)

Lemma process_csv_loop_inr (rows : list Row) (acc cs : list Contract) :
  process_csv_loop rows acc = inr cs <->
  exists loaded, Forall2 (fun row c => load_row row = inr c) rows loaded /\ cs = acc ++ loaded.
Proof.
  revert acc. induction rows as [|row rows IH]; intros acc; cbn.
  - split.
    + intros [= <-]. exists []. split; [constructor | now rewrite app_nil_r].
    + intros (loaded & H & ->). inversion H. now rewrite app_nil_r.
  - destruct (load_row row) as [e|c] eqn:Hrow.
    + split; [discriminate |]. intros (loaded & H & _). inversion H; congruence.
    + rewrite IH. split.
      * intros (loaded & H & ->). exists (c :: loaded).
        split; [now constructor | now rewrite <- app_assoc].
      * intros (loaded & H & ->). inversion H as [|? c' ? loaded' Hc Hrest]; subst.
        assert (c' = c) as -> by congruence.
        exists loaded'. split; [exact Hrest | now rewrite <- app_assoc].
Qed.

Lemma load_row_inr (row : Row) (c : Contract) :
  load_row row = inr c <->
  exists encode key,
    dict_get row "encode" = Some encode /\ dict_get row "origin_key" = Some key /\
    c = seed (if startswith encode "0x" then encode else "0x" +:+ encode) key.
Proof.
  unfold load_row.
  destruct (dict_get row "encode") as [encode|]; [|split; [discriminate | intros (? & ? & [=] & _)]].
  destruct (dict_get row "origin_key") as [key|].
  - split.
    + intros [= <-]. exists encode, key. now destruct (startswith encode "0x").
    + intros (e & k & [= <-] & [= <-] & ->). now destruct (startswith encode "0x").
  - split; [discriminate | intros (? & ? & _ & [=] & _)].
Qed.

Lemma loaded_prefix (rows : list Row) (contracts : list Contract)
    (Hload : process_csv rows = inr contracts) :
  Forall (fun c => startswith (address c) "0x" = true /\ chain_id c = origin_key c)
         contracts.
Proof.
  apply process_csv_loop_inr in Hload as (loaded & H & ->). cbn.
  induction H as [|row c rows loaded Hrow _ IH]; constructor; [|exact IH].
  apply load_row_inr in Hrow as (encode & key & _ & _ & ->). cbn. split; [|reflexivity].
  destruct (startswith encode "0x") eqn:Hp; [exact Hp |].
  unfold startswith. now destruct encode.
Qed.


(** X1.  Every record [process_csv] returns has an address that starts
    with ["0x"], and a chain id equal to its origin key. *)
Theorem loaded_addresses_have_prefix (rows : list Row) (contracts : list Contract)
    (Hload : process_csv rows = inr contracts) :
  Forall (fun c => startswith (address c) "0x" = true /\ chain_id c = origin_key c)
         contracts.
Proof. exact (loaded_prefix rows contracts Hload). Qed.

Lemma loaded_addresses_have_prefix_witness :
  Forall (fun c => startswith (address c) "0x" = true /\ chain_id c = origin_key c)
         [seed "0xabc123" "optimism"; seed "0xdef" "base"].
Proof.
  apply (loaded_addresses_have_prefix
           [[("encode", "abc123"); ("origin_key", "optimism")];
            [("origin_key", "base"); ("encode", "0xdef"); ("note", "x")]]).
  reflexivity.
Defined.

(** X2.  [process_csv] returns one record for each row, in the order of
    the rows: the seed record of the row's origin key, whose address is the
    row's [encode] field, as it is when it starts with ["0x"] and with
    ["0x"] put before it otherwise. *)
Theorem loaded_records_follow_rows (rows : list Row) (contracts : list Contract)
    (Hload : process_csv rows = inr contracts) :
  length contracts = length rows /\
  forall i row, rows !! i = Some row ->
    exists encode key,
      dict_get row "encode" = Some encode /\ dict_get row "origin_key" = Some key /\
      contracts !! i =
        Some (seed (if startswith encode "0x" then encode else "0x" +:+ encode) key).
Proof.
  apply process_csv_loop_inr in Hload as (loaded & H & ->). cbn. split.
  - symmetry. exact (Forall2_length _ _ _ H).
  - intros i row Hi.
    destruct (Forall2_lookup_l _ _ _ _ _ H Hi) as (c & Hc & Hrow).
    apply load_row_inr in Hrow as (encode & key & He & Hk & ->).
    exists encode, key. auto.
Qed.

Lemma loaded_records_follow_rows_witness :
  length [seed "0xabc123" "optimism"; seed "0xdef" "base"] = 2%nat /\
  forall i row,
    [[("encode", "abc123"); ("origin_key", "optimism")];
     [("origin_key", "base"); ("encode", "0xdef"); ("note", "x")]] !! i = Some row ->
    exists encode key,
      dict_get row "encode" = Some encode /\ dict_get row "origin_key" = Some key /\
      [seed "0xabc123" "optimism"; seed "0xdef" "base"] !! i =
        Some (seed (if startswith encode "0x" then encode else "0x" +:+ encode) key).
Proof.
  apply (loaded_records_follow_rows
           [[("encode", "abc123"); ("origin_key", "optimism")];
            [("origin_key", "base"); ("encode", "0xdef"); ("note", "x")]]).
  reflexivity.
Defined.

Lemma dict_get_header {V} (row : list (string * V)) (key : string) :
  is_Some (dict_get row key) <-> key ∈ map fst row.
Proof.
  induction row as [|[k v] row IH]; cbn.
  - rewrite elem_of_nil. split; [intros [? [=]] | tauto].
  - rewrite elem_of_cons. destruct (String.eqb_spec k key) as [->|Hne].
    + split; [auto | eauto].
    + rewrite IH. split; [auto | intros [->|H]; [congruence | exact H]].
Qed.

Lemma process_csv_loop_all (rows : list Row) (acc : list Contract) :
  Forall (fun row => exists c, load_row row = inr c) rows ->
  exists contracts,
    process_csv_loop rows acc = inr contracts /\
    length contracts = (length acc + length rows)%nat.
Proof.
  intros H. revert acc. induction H as [|row rows [c Hc] _ IH]; intros acc; cbn.
  - exists acc. split; [reflexivity | lia].
  - rewrite Hc. destruct (IH (acc ++ [c])) as (cs & -> & Hlen).
    exists cs. split; [reflexivity |]. rewrite length_app in Hlen. cbn in Hlen. lia.
Qed.

(** X3.  On the rows of a file in which no row is shorter than the header
    -- every row has the keys of the header -- [process_csv] raises exactly
    when there is a row and the header lacks the column [encode] or the
    column [origin_key]: it is the [KeyError] of the first row, for
    [encode] when that is missing and for [origin_key] otherwise.  In every
    other case it returns one record for each row. *)
Theorem load_fails_on_missing_header_column (header : list string) (rows : list Row)
    (Hshape : Forall (fun row => map fst row = header) rows) :
  match process_csv rows with
  | inr contracts =>
      length contracts = length rows /\
      (rows = [] \/ ("encode" ∈ header /\ "origin_key" ∈ header))
  | inl e =>
      rows <> [] /\
      ((("encode" ∉ header) /\ e = KeyError "encode") \/
       ("encode" ∈ header /\ ("origin_key" ∉ header) /\ e = KeyError "origin_key"))
  end.
Proof.
  assert (Hrow : forall row, map fst row = header ->
            match load_row row with
            | inr _ => "encode" ∈ header /\ "origin_key" ∈ header
            | inl e =>
                (("encode" ∉ header) /\ e = KeyError "encode") \/
                ("encode" ∈ header /\ ("origin_key" ∉ header) /\ e = KeyError "origin_key")
            end).
  { intros row <-. unfold load_row.
    pose proof (dict_get_header row "encode") as He.
    pose proof (dict_get_header row "origin_key") as Hk.
    destruct (dict_get row "encode") as [encode|].
    - assert ("encode" ∈ map fst row) by (apply He; eauto).
      destruct (dict_get row "origin_key") as [key|].
      + split; [assumption | apply Hk; eauto].
      + right. repeat split; auto. intros Hin. apply Hk in Hin as [? [=]].
    - left. split; [|reflexivity]. intros Hin. apply He in Hin as [? [=]]. }
  destruct rows as [|row rows]; [cbn; auto |].
  pose proof (Hrow row (Forall_inv Hshape)) as Hfirst.
  unfold process_csv. cbn [process_csv_loop].
  destruct (load_row row) as [e|c] eqn:Hload.
  - split; [discriminate | exact Hfirst].
  - assert (Hall : Forall (fun row => exists c, load_row row = inr c) rows).
    { apply Forall_inv_tail in Hshape. clear Hload.
      induction Hshape as [|row' rows' Hr _ IH]; constructor; [|exact IH].
      specialize (Hrow row' Hr). destruct (load_row row') as [e|c']; [|eauto].
      destruct Hfirst as [H1 H2]. destruct Hrow as [[Hn _]|[_ [Hn _]]]; contradiction. }
    destruct (process_csv_loop_all rows ([] ++ [c]) Hall) as (cs & -> & Hlen).
    split; [cbn in *; lia | right; exact Hfirst].
Qed.

Lemma load_fails_on_missing_header_column_witness :
  rows_without_origin <> [] /\
  ((("encode" ∉ ["encode"; "note"]) /\ KeyError "origin_key" = KeyError "encode") \/
   ("encode" ∈ ["encode"; "note"] /\ ("origin_key" ∉ ["encode"; "note"]) /\
    KeyError "origin_key" = KeyError "origin_key")).
Proof.
  exact (load_fails_on_missing_header_column ["encode"; "note"] rows_without_origin
           ltac:(repeat constructor)).
Defined.

(** ** The constructor of [BlockscoutResponse] *)

Lemma dict_get_set_same (key : string) (v : PyVal) (kv : list (string * PyVal)) :
  dict_get (dict_set key v kv) key = Some v.
Proof.
  induction kv as [|[k w] kv IH]; cbn.
  - now rewrite String.eqb_refl.
  - destruct (String.eqb k key) eqn:Hk; cbn; rewrite Hk; [reflexivity | exact IH].
Qed.

Lemma dict_get_set_other (key key' : string) (v : PyVal) (kv : list (string * PyVal)) :
  key' <> key -> dict_get (dict_set key v kv) key' = dict_get kv key'.
Proof.
  intros Hne. induction kv as [|[k w] kv IH]; cbn.
  - destruct (String.eqb_spec key key'); congruence.
  - destruct (String.eqb_spec k key) as [->|Hk]; cbn.
    + destruct (String.eqb_spec key key'); congruence.
    + now rewrite IH.
Qed.

(** [setattr_field] knows a key or not, whatever the value and the object. *)
Lemma setattr_field_is_field (key : string) (v : PyVal) (d : BlockscoutResponse) :
  is_Some (setattr_field key v d) <-> is_field key = true.
Proof.
  unfold is_field, setattr_field, response_defaults. destruct d.
  repeat match goal with
         | |- context [String.eqb key ?s] =>
             destruct (String.eqb key s); [split; [reflexivity | eauto] |]
         end.
  split; [intros [? [=]] | discriminate].
Qed.

Ltac split_on_key key H :=
  repeat match type of H with
         | context [String.eqb key ?s] =>
             destruct (String.eqb_spec key s);
             [subst key; injection H as <-; try reflexivity; try congruence |]
         end.

(** A field other than [additional_fields] is assigned without a look
    at the side map. *)
Lemma setattr_field_side_map (key : string) (v : PyVal) (d d' : BlockscoutResponse) :
  setattr_field key v d = Some d' -> key <> "additional_fields" ->
  additional_fields d' = additional_fields d.
Proof.
  intros H Hne. destruct d. unfold setattr_field in H. cbn.
  split_on_key key H. discriminate.
Qed.

Section FieldOfResponse.

(** A field [get] of the response, of name [field]. *)
Variable get : BlockscoutResponse -> PyVal.
Variable field : string.
Hypothesis field_known : is_field field = true.
Hypothesis get_setattr : forall key v d d',
  setattr_field key v d = Some d' -> get d' = if String.eqb key field then v else get d.
Hypothesis get_side_map : forall af d, get (set_additional_fields af d) = get d.

Lemma init_loop_field (kwargs : list (string * PyVal)) (d d' : BlockscoutResponse) :
  init_loop kwargs d = inr d' -> get d' = default (get d) (last_binding kwargs field).
Proof.
  revert d. induction kwargs as [|[key v] rest IH]; intros d H; cbn in H.
  - now injection H as <-.
  - cbn [last_binding].
    destruct (setattr_field key v d) as [d1|] eqn:Hset.
    + rewrite (IH _ H). rewrite (get_setattr _ _ _ _ Hset).
      destruct (last_binding rest field); [reflexivity |].
      now destruct (String.eqb key field).
    + assert (Hk : String.eqb key field = false).
      { destruct (String.eqb_spec key field) as [->|]; [|reflexivity].
        apply (setattr_field_is_field field v d) in field_known.
        rewrite Hset in field_known. now destruct field_known. }
      destruct (additional_fields d); try discriminate.
      rewrite (IH _ H), get_side_map.
      destruct (last_binding rest field); [reflexivity |]. now rewrite Hk.
Qed.

End FieldOfResponse.

Ltac field_of_response :=
  intros kwargs d d' H;
  match goal with
  | |- ?g d' = default (?g d) (last_binding kwargs ?f) =>
      apply (init_loop_field g f); [reflexivity | | | exact H]
  end;
  [ intros key v [] d1 Hs; unfold setattr_field in Hs; cbn;
    split_on_key key Hs; discriminate
  | intros af []; reflexivity ].

Lemma init_loop_name : forall kwargs d d',
  init_loop kwargs d = inr d' -> r_name d' = default (r_name d) (last_binding kwargs "name").
Proof. field_of_response. Qed.

Lemma init_loop_is_verified : forall kwargs d d',
  init_loop kwargs d = inr d' ->
  is_verified d' = default (is_verified d) (last_binding kwargs "is_verified").
Proof. field_of_response. Qed.

Lemma init_loop_is_fully_verified : forall kwargs d d',
  init_loop kwargs d = inr d' ->
  is_fully_verified d' =
    default (is_fully_verified d) (last_binding kwargs "is_fully_verified").
Proof. field_of_response. Qed.

Lemma init_loop_is_partially_verified : forall kwargs d d',
  init_loop kwargs d = inr d' ->
  is_partially_verified d' =
    default (is_partially_verified d) (last_binding kwargs "is_partially_verified").
Proof. field_of_response. Qed.

Lemma init_loop_is_verified_via_sourcify : forall kwargs d d',
  init_loop kwargs d = inr d' ->
  is_verified_via_sourcify d' =
    default (is_verified_via_sourcify d) (last_binding kwargs "is_verified_via_sourcify").
Proof. field_of_response. Qed.

Lemma init_loop_sourcify_repo_url : forall kwargs d d',
  init_loop kwargs d = inr d' ->
  sourcify_repo_url d' =
    default (sourcify_repo_url d) (last_binding kwargs "sourcify_repo_url").
Proof. field_of_response. Qed.

Lemma init_loop_minimal_proxy_address_hash : forall kwargs d d',
  init_loop kwargs d = inr d' ->
  minimal_proxy_address_hash d' =
    default (minimal_proxy_address_hash d)
            (last_binding kwargs "minimal_proxy_address_hash").
Proof. field_of_response. Qed.

Lemma init_loop_verified_at : forall kwargs d d',
  init_loop kwargs d = inr d' ->
  verified_at d' = default (verified_at d) (last_binding kwargs "verified_at").
Proof. field_of_response. Qed.

Lemma last_binding_cons_none (key k : string) (v : PyVal) (rest : list (string * PyVal)) :
  last_binding ((k, v) :: rest) key = None ->
  last_binding rest key = None /\ String.eqb k key = false.
Proof.
  cbn. destruct (last_binding rest key); [discriminate |].
  destruct (String.eqb k key); [discriminate | auto].
Qed.

Lemma init_loop_side_map (kwargs kv0 : list (string * PyVal)) (d : BlockscoutResponse) :
  last_binding kwargs "additional_fields" = None ->
  additional_fields d = VDict kv0 ->
  exists d' kv',
    init_loop kwargs d = inr d' /\ additional_fields d' = VDict kv' /\
    forall key,
      dict_get kv' key =
        if is_field key then dict_get kv0 key
        else match last_binding kwargs key with
             | Some v => Some v
             | None => dict_get kv0 key
             end.
Proof.
  revert kv0 d. induction kwargs as [|[k v] rest IH]; intros kv0 d Hno Haf.
  - exists d, kv0. split; [reflexivity |]. split; [exact Haf |].
    intros key. cbn. now destruct (is_field key).
  - apply last_binding_cons_none in Hno as [Hrest Hk]. cbn [init_loop].
    destruct (setattr_field k v d) as [d1|] eqn:Hset.
    + assert (Hfk : is_field k = true) by (apply (setattr_field_is_field k v d); eauto).
      assert (Haf1 : additional_fields d1 = VDict kv0).
      { rewrite (setattr_field_side_map _ _ _ _ Hset); [exact Haf |].
        intros ->. now rewrite String.eqb_refl in Hk. }
      destruct (IH kv0 d1 Hrest Haf1) as (d' & kv' & Hinit & Haf' & Hget).
      exists d', kv'. split; [exact Hinit |]. split; [exact Haf' |].
      intros key. rewrite Hget. cbn [last_binding].
      destruct (is_field key) eqn:Hfq; [reflexivity |].
      destruct (last_binding rest key); [reflexivity |].
      destruct (String.eqb_spec k key) as [->|]; [congruence | reflexivity].
    + assert (Hfk : is_field k = false).
      { destruct (is_field k) eqn:Hf; [|reflexivity].
        apply (setattr_field_is_field k v d) in Hf. rewrite Hset in Hf. now destruct Hf. }
      rewrite Haf.
      destruct (IH (dict_set k v kv0) (set_additional_fields (VDict (dict_set k v kv0)) d)
                  Hrest) as (d' & kv' & Hinit & Haf' & Hget).
      { now destruct d. }
      exists d', kv'. split; [exact Hinit |]. split; [exact Haf' |].
      intros key. rewrite Hget. cbn [last_binding].
      destruct (is_field key) eqn:Hfq.
      * apply dict_get_set_other. congruence.
      * destruct (last_binding rest key); [reflexivity |].
        destruct (String.eqb_spec k key) as [->|Hne].
        -- apply dict_get_set_same.
        -- apply dict_get_set_other. congruence.
Qed.

Lemma init_loop_app (a b : list (string * PyVal)) (d : BlockscoutResponse) :
  init_loop (a ++ b) d =
  match init_loop a d with
  | inr d' => init_loop b d'
  | inl e => inl e
  end.
Proof.
  revert d. induction a as [|[k v] a IH]; intros d; cbn; [reflexivity |].
  destruct (setattr_field k v d); [apply IH |].
  destruct (additional_fields d); try reflexivity. apply IH.
Qed.

(** X4.  When the constructor returns, each field the mapper reads holds
    the value the body gives under the field's name, and the class default
    when the body has no such key. *)
Theorem constructor_reads_fields (kwargs : list (string * PyVal)) (d : BlockscoutResponse)
    (Hnew : new_BlockscoutResponse (VDict kwargs) = inr d) :
  r_name d = default (VStr "") (last_binding kwargs "name") /\
  is_verified d = default (VBool false) (last_binding kwargs "is_verified") /\
  is_fully_verified d = default (VBool false) (last_binding kwargs "is_fully_verified") /\
  is_partially_verified d =
    default (VBool false) (last_binding kwargs "is_partially_verified") /\
  is_verified_via_sourcify d =
    default (VBool false) (last_binding kwargs "is_verified_via_sourcify") /\
  sourcify_repo_url d = default (VStr "") (last_binding kwargs "sourcify_repo_url") /\
  minimal_proxy_address_hash d =
    default (VStr "") (last_binding kwargs "minimal_proxy_address_hash") /\
  verified_at d = default (VStr "") (last_binding kwargs "verified_at").
Proof.
  cbn in Hnew. destruct (has_key kwargs "self"); [discriminate |].
  rewrite (init_loop_name _ _ _ Hnew), (init_loop_is_verified _ _ _ Hnew),
    (init_loop_is_fully_verified _ _ _ Hnew), (init_loop_is_partially_verified _ _ _ Hnew),
    (init_loop_is_verified_via_sourcify _ _ _ Hnew), (init_loop_sourcify_repo_url _ _ _ Hnew),
    (init_loop_minimal_proxy_address_hash _ _ _ Hnew), (init_loop_verified_at _ _ _ Hnew).
  repeat split.
Qed.

Lemma constructor_reads_fields_witness :
  r_name erc1967_response = VStr "MyERC1967Proxy" /\
  is_verified erc1967_response = VBool false /\
  is_fully_verified erc1967_response = VBool false /\
  is_partially_verified erc1967_response = VBool false /\
  is_verified_via_sourcify erc1967_response = VBool false /\
  sourcify_repo_url erc1967_response = VStr "" /\
  minimal_proxy_address_hash erc1967_response = VStr "" /\
  verified_at erc1967_response = VStr "".
Proof.
  exact (constructor_reads_fields [("name", VStr "MyERC1967Proxy")] erc1967_response eq_refl).
Defined.

Lemma last_binding_has_key (kwargs : list (string * PyVal)) (key : string) :
  last_binding kwargs key = None -> has_key kwargs key = false.
Proof.
  induction kwargs as [|[k v] rest IH]; [reflexivity |]. intros H.
  apply last_binding_cons_none in H as [Hrest Hk].
  unfold has_key in *. cbn. now rewrite Hk, IH.
Qed.

(** X5.  For a body that has neither the key ["additional_fields"] nor the
    key ["self"] the constructor never raises, and the side map it leaves
    holds exactly the keys of the body that are no dataclass field, each
    with its value. *)
Theorem constructor_keeps_unknown_keys (kwargs : list (string * PyVal))
    (Hno : last_binding kwargs "additional_fields" = None)
    (Hself : last_binding kwargs "self" = None) :
  exists d kv,
    new_BlockscoutResponse (VDict kwargs) = inr d /\
    additional_fields d = VDict kv /\
    forall key,
      dict_get kv key = if is_field key then None else last_binding kwargs key.
Proof.
  destruct (init_loop_side_map kwargs [] response_defaults Hno eq_refl)
    as (d & kv & Hinit & Haf & Hget).
  exists d, kv. split; [|split; [exact Haf |]].
  - cbn. now rewrite (last_binding_has_key _ _ Hself).
  - intros key. rewrite Hget. cbn. now destruct (last_binding kwargs key).
Qed.

Lemma constructor_keeps_unknown_keys_witness :
  exists d kv,
    new_BlockscoutResponse
      (VDict [("name", VStr "Token"); ("abi", VList []); ("language", VStr "solidity")])
      = inr d /\
    additional_fields d = VDict kv /\
    forall key,
      dict_get kv key =
        if is_field key then None
        else last_binding
               [("name", VStr "Token"); ("abi", VList []); ("language", VStr "solidity")] key.
Proof.
  apply (constructor_keeps_unknown_keys
           [("name", VStr "Token"); ("abi", VList []); ("language", VStr "solidity")]).
  - reflexivity.
  - reflexivity.
Defined.

(** The keyword [self] is refused, whatever else the body holds. *)
Example constructor_refuses_self :
  new_BlockscoutResponse (VDict [("name", VStr "Token"); ("self", VInt 1)]) = inl TypeError.
Proof. reflexivity. Qed.

(** X6.  A body can make the constructor raise: once the key
    ["additional_fields"] has put a value that is no dict in place of the
    side map, the next key that is no dataclass field raises [TypeError]. *)
Theorem constructor_raises_on_replaced_side_map
    (pre mid post : list (string * PyVal)) (v x : PyVal) (key : string)
    (d : BlockscoutResponse)
    (Hpre : new_BlockscoutResponse (VDict pre) = inr d)
    (Hv : forall kv, v <> VDict kv)
    (Hmid : Forall (fun item => is_field (fst item) = true /\
                                fst item <> "additional_fields") mid)
    (Hkey : is_field key = false) :
  new_BlockscoutResponse
    (VDict (pre ++ ("additional_fields", v) :: mid ++ (key, x) :: post)) = inl TypeError.
Proof.
  cbn in *.
  destruct (has_key (pre ++ ("additional_fields", v) :: mid ++ (key, x) :: post) "self");
    [reflexivity |].
  destruct (has_key pre "self"); [discriminate |].
  rewrite init_loop_app, Hpre. cbn [init_loop].
  assert (Hset : exists d1, setattr_field "additional_fields" v d = Some d1 /\
                            additional_fields d1 = v).
  { destruct d. eexists. split; reflexivity. }
  destruct Hset as (d1 & -> & Haf).
  rewrite init_loop_app.
  assert (Hm : forall d1, additional_fields d1 = v ->
             exists d2, init_loop mid d1 = inr d2 /\ additional_fields d2 = v).
  { clear d1 Haf. induction Hmid as [|[k w] mid [Hf Hne] _ IH]; intros d1 Haf.
    - exists d1. auto.
    - cbn [init_loop]. cbn in Hf, Hne.
      apply (setattr_field_is_field k w d1) in Hf as [d2 Hd2]. rewrite Hd2.
      apply IH. rewrite (setattr_field_side_map _ _ _ _ Hd2 Hne). exact Haf. }
  destruct (Hm d1 Haf) as (d2 & -> & Haf2). cbn [init_loop].
  destruct (setattr_field key x d2) as [d3|] eqn:Hs.
  - assert (is_field key = true) by (apply (setattr_field_is_field key x d2); eauto).
    congruence.
  - rewrite Haf2. destruct v; try reflexivity. now destruct (Hv kv).
Qed.

Lemma constructor_raises_on_replaced_side_map_witness :
  new_BlockscoutResponse
    (VDict ([("name", VStr "Token")] ++
            ("additional_fields", VNone) :: [("is_verified", VBool true)] ++
            ("abi", VList []) :: [])) = inl TypeError.
Proof.
  apply (constructor_raises_on_replaced_side_map
           [("name", VStr "Token")] [("is_verified", VBool true)] [] VNone (VList []) "abi"
           (mkResponse (VStr "") (VStr "Token") (VBool false) (VBool false) (VBool false)
                       (VBool false) (VStr "") (VStr "") (VStr "") (VStr "") (VStr "")
                       (VStr "") (VDict []))).
  - reflexivity.
  - intros kv. discriminate.
  - repeat constructor; cbn; congruence.
  - reflexivity.
Defined.

(** ** Explorer client, whatever the explorer does *)

Lemma count_gets_app (a b : list event) :
  count_gets (a ++ b) = (count_gets a + count_gets b)%nat.
Proof.
  induction a as [|e a IH]; [reflexivity |]. destruct e; cbn; now rewrite IH.
Qed.

Section ClientFrame.

Variable net : nat -> Reply.

(** The events and the result of the loop depend on the number of requests
    sent before, not on the store or on the events before. *)
Lemma fetch_loop_events (url : string) (n s : nat) :
  exists evs res,
    (forall h ev0,
        fetch_loop net url n (mkWorld h ev0 s) =
          (mkWorld h (ev0 ++ evs) (s + count_gets evs), res)) /\
    (count_gets evs <= n)%nat /\
    (n <> 0%nat -> 1 <= count_gets evs)%nat /\
    Forall (fun e => e = Get url \/ e = Sleep retry_delay) evs /\
    Forall (fun e => is_print e = false) evs.
Proof.
  revert s. induction n as [|n IH]; intros s.
  - exists [], (inl (Exception "Failed to fetch data after 3 retries")).
    split; [|repeat split; try constructor; try lia].
    intros h ev0. cbn. now rewrite app_nil_r, Nat.add_0_r.
  - destruct (net s) as [|st body] eqn:Hnet.
    + exists [Get url], (inl RequestException).
      split; [|repeat split; cbn; try lia; repeat constructor; auto].
      intros h ev0. cbn [fetch_loop]. unfold mbind, M_bind, requests_get. cbn [sent heap events].
      rewrite Hnet. cbn. f_equal. f_equal. lia.
    + destruct (st =? 200) eqn:H200; [|destruct (st =? 404) eqn:H404].
      * exists [Get url], (decode body).
        split; [|repeat split; cbn; try lia; repeat constructor; auto].
        intros h ev0. cbn [fetch_loop]. unfold mbind, M_bind, requests_get.
        cbn [sent heap events]. rewrite Hnet. cbn [fst snd]. rewrite H200.
        unfold lift. cbn. f_equal. f_equal. lia.
      * exists [Get url], (inl (ValueError "Contract not found")).
        split; [|repeat split; cbn; try lia; repeat constructor; auto].
        intros h ev0. cbn [fetch_loop]. unfold mbind, M_bind, requests_get.
        cbn [sent heap events]. rewrite Hnet. cbn [fst snd]. rewrite H200, H404.
        unfold raise. cbn. f_equal. f_equal. lia.
      * destruct (IH (S s)) as (evs & res & Hrun & Hle & _ & Hall & Hnp).
        exists (Get url :: Sleep retry_delay :: evs), res.
        split;
          [|split; [cbn; lia |];
            split; [cbn; lia |];
            split;
              [ constructor; [now left | constructor; [now right | exact Hall]]
              | constructor; [reflexivity | constructor; [reflexivity | exact Hnp]]]].
        intros h ev0. cbn [fetch_loop]. unfold mbind, M_bind, requests_get.
        cbn [sent heap events]. rewrite Hnet. cbn [fst snd]. rewrite H200, H404.
        unfold time_sleep, emit. cbn [sent heap events]. rewrite Hrun.
        cbn [count_gets]. f_equal. f_equal; [|lia].
        now rewrite <- !app_assoc.
Qed.

Lemma fetch_loop_normal (url : string) (n : nat) (w : world) :
  fetch_loop net url n w =
    (mkWorld (heap w) (events w ++ fetch_events net url n (sent w))
             (sent w + count_gets (fetch_events net url n (sent w))),
     fetch_result net url n (sent w)).
Proof.
  destruct (fetch_loop_events url n (sent w)) as (evs & res & Hrun & _).
  unfold fetch_events, fetch_result, blank. rewrite (Hrun (fun _ => seed "" "") []).
  cbn [fst snd events]. destruct w as [h ev0 s]. cbn [heap events sent]. apply Hrun.
Qed.

Lemma fetch_events_bounds (url : string) (n s : nat) :
  (count_gets (fetch_events net url n s) <= n)%nat /\
  (n <> 0%nat -> 1 <= count_gets (fetch_events net url n s))%nat /\
  Forall (fun e => e = Get url \/ e = Sleep retry_delay) (fetch_events net url n s) /\
  Forall (fun e => is_print e = false) (fetch_events net url n s).
Proof.
  destruct (fetch_loop_events url n s) as (evs & res & Hrun & H).
  unfold fetch_events, blank. rewrite (Hrun (fun _ => seed "" "") []). exact H.
Qed.

End ClientFrame.

(** X7.  Whatever the explorer answers, and if [requests.get] raises as
    well, [fetch_blockscout_data] leaves every record as it is, sends at
    least one and at most three requests, all to [api_url + address], does
    nothing else than these requests and sleeps of [retry_delay], and
    prints nothing. *)
Theorem fetch_sends_one_to_three_requests (net : nat -> Reply) (api_url addr : string)
    (w : world) :
  exists evs result,
    fetch_blockscout_data net api_url addr w =
      (mkWorld (heap w) (events w ++ evs) (sent w + count_gets evs), result) /\
    (1 <= count_gets evs <= 3)%nat /\
    Forall (fun e => e = Get (api_url +:+ addr) \/ e = Sleep 1) evs.
Proof.
  unfold fetch_blockscout_data. rewrite fetch_loop_normal.
  destruct (fetch_events_bounds net (api_url +:+ addr) max_retries (sent w))
    as (Hle & Hge & Hall & _).
  eexists _, _. split; [reflexivity |]. split; [|exact Hall].
  unfold max_retries in *. lia.
Qed.

(** X8.  An exception of [requests.get] is not retried: after [k]
    transient replies, a request that raises ends [fetch_blockscout_data]
    with that exception, without a sleep and without a further request. *)
Theorem connection_error_not_retried (net : nat -> Reply) (api_url addr : string)
    (w : world) (k : nat)
    (Hk : (k < 3)%nat)
    (Hpre : forall j, (j < k)%nat -> transient (net (sent w + j)%nat) = true)
    (Hraise : net (sent w + k)%nat = ConnectionError) :
  let url := api_url +:+ addr in
  fetch_blockscout_data net api_url addr w =
    (mkWorld (heap w) (events w ++ attempts url k ++ [Get url]) (S (sent w + k)),
     inl RequestException).
Proof.
  intros url. unfold fetch_blockscout_data, max_retries. fold url.
  replace 3%nat with (k + S (2 - k))%nat by lia.
  rewrite (fetch_loop_transient net url k (S (2 - k)) w Hpre).
  pose proof (fetch_loop_settles net url (2 - k)
                (mkWorld (heap w) (events w ++ attempts url k) (sent w + k))) as Hs.
  cbn [sent heap events] in Hs. rewrite Hraise in Hs.
  rewrite (Hs eq_refl), <- app_assoc. reflexivity.
Qed.

Lemma connection_error_not_retried_witness :
  fetch_blockscout_data
    (fun k => match k with O => Response 503 None | _ => ConnectionError end)
    "u/" "0xabc" stub_world =
    (mkWorld (heap stub_world) [Get "u/0xabc"; Sleep 1; Get "u/0xabc"] 2,
     inl RequestException).
Proof.
  apply (connection_error_not_retried
           (fun k => match k with O => Response 503 None | _ => ConnectionError end)
           "u/" "0xabc" stub_world 1).
  - lia.
  - intros j Hj. destruct j; [reflexivity | lia].
  - reflexivity.
Defined.

(** ** Endpoint registry *)

Lemma registry_tables_agree_aux (key : string) :
  match dict_get BLOCKSCOUT_APIS key with
  | Some api_url => api_url <> "" /\ exists id, dict_get CHAIN_ID_MAP key = Some id
  | None => dict_get CHAIN_ID_MAP key = None
  end.
Proof.
  unfold BLOCKSCOUT_APIS, CHAIN_ID_MAP. cbn [dict_get].
  repeat match goal with
         | |- context [String.eqb ?s key] =>
             destruct (String.eqb s key); [split; [discriminate | eauto] |]
         end.
  reflexivity.
Qed.

(** X9.  The two tables of the registry have the same keys, and no
    endpoint is the empty string: an origin key has an endpoint exactly
    when it has a chain id, so [process_contract] takes its unknown-origin
    exit exactly for the keys that are not in the tables. *)
Theorem registry_tables_agree (key : string) :
  match dict_get BLOCKSCOUT_APIS key with
  | Some api_url => api_url <> "" /\ exists id, dict_get CHAIN_ID_MAP key = Some id
  | None => dict_get CHAIN_ID_MAP key = None
  end.
Proof. exact (registry_tables_agree_aux key). Qed.

Lemma known_origin (key : string) (api_url : string) :
  dict_get BLOCKSCOUT_APIS key = Some api_url ->
  (exists a u, api_url = String a u) /\ exists id, dict_get CHAIN_ID_MAP key = Some id.
Proof.
  intros H. pose proof (registry_tables_agree_aux key) as R.
  rewrite H in R. destruct R as [Hne Hid]. split; [|exact Hid].
  destruct api_url as [|a u]; [congruence | eauto].
Qed.

(** ** Response mapper, field by field *)

Ltac cbn_fields :=
  cbn [address chain_id name owner_project usage_category deployment_tx
       deployer_address deployment_date verified_status is_proxy_contract
       proxy_address implementation_address source_repo_url origin_key].

Lemma mapped_identity (c : Contract) (d : BlockscoutResponse) :
  same_identity c (mapped c d) /\ same_identity c (half_mapped c d).
Proof. unfold same_identity, mapped, half_mapped. cbn_fields. tauto. Qed.

Lemma mapped_twice (c : Contract) (d1 d2 : BlockscoutResponse) :
  mapped (mapped c d1) d2 =
  set_deployment_date
    (if truthy (verified_at d2) then verified_at d2
     else if truthy (verified_at d1) then verified_at d1
     else deployment_date c)
    (mapped c d2).
Proof.
  destruct c. unfold mapped, set_deployment_date. cbn_fields.
  destruct (dict_get CHAIN_ID_MAP _); cbn [default];
    destruct (truthy (verified_at d2)); reflexivity.
Qed.

(** X10.  Whether it returns or raises, the mapper never assigns the
    address, the origin key, the owner project, the usage category, the
    deployment transaction or the deployer address of the record, touches no
    other record, sends no request and prints nothing; and in both cases it
    has set the proxy address and the implementation address to the same
    value, the proxy hash of the response. *)
Theorem mapper_frame (r : ref) (d : BlockscoutResponse) (w : world) :
  let w' := fst (map_blockscout_to_open_labels r d w) in
  same_identity (heap w r) (heap w' r) /\
  (forall r', r' <> r -> heap w' r' = heap w r') /\
  events w' = events w /\ sent w' = sent w /\
  proxy_address (heap w' r) = minimal_proxy_address_hash d /\
  implementation_address (heap w' r) = minimal_proxy_address_hash d.
Proof.
  cbn zeta.
  destruct (is_str (r_name d) || truthy (minimal_proxy_address_hash d)) eqn:H.
  - destruct (map_returns r d w H) as (w' & -> & Hh & Hother & Hev & Hs). cbn [fst].
    rewrite Hh. split; [apply mapped_identity |]. repeat split; auto.
  - destruct (map_raises r d w H) as (w' & -> & Hh & Hother & Hev & Hs). cbn [fst].
    rewrite Hh. split; [apply mapped_identity |]. repeat split; auto.
Qed.

(** X11.  Mapping a record twice from the same response gives what mapping
    it once gives. *)
Theorem mapper_idempotent (r r1 : ref) (d : BlockscoutResponse) (w w1 : world)
    (Hmap : map_blockscout_to_open_labels r d w = (w1, inr r1)) :
  exists w2,
    map_blockscout_to_open_labels r d w1 = (w2, inr r) /\
    heap w2 r = heap w1 r.
Proof.
  destruct (is_str (r_name d) || truthy (minimal_proxy_address_hash d)) eqn:H.
  2:{ destruct (map_raises r d w H) as (w' & Hw & _). congruence. }
  destruct (map_returns r d w H) as (w' & Hw & Hh & _).
  assert (w' = w1) as -> by congruence.
  destruct (map_returns r d w1 H) as (w2 & Hw2 & Hh2 & _).
  exists w2. split; [exact Hw2 |].
  rewrite Hh2, Hh, mapped_twice.
  destruct (heap w r). unfold mapped, set_deployment_date. cbn_fields.
  destruct (truthy (verified_at d)); reflexivity.
Qed.

Lemma mapper_idempotent_witness :
  exists w2,
    map_blockscout_to_open_labels 0%nat erc1967_response
      (fst (map_blockscout_to_open_labels 0%nat erc1967_response stub_world))
      = (w2, inr 0%nat) /\
    heap w2 0%nat
      = heap (fst (map_blockscout_to_open_labels 0%nat erc1967_response stub_world)) 0%nat.
Proof.
  apply (mapper_idempotent 0%nat 0%nat erc1967_response stub_world). reflexivity.
Defined.

(** X12.  When a record is mapped from one response and then from
    another, the second response decides every field the mapper assigns
    but the deployment date: a second response without [verified_at] leaves
    the date the first one gave. *)
Theorem mapper_keeps_older_date (r r1 r2 : ref) (d1 d2 : BlockscoutResponse)
    (w w1 w2 : world)
    (Hfirst : map_blockscout_to_open_labels r d1 w = (w1, inr r1))
    (Hsecond : map_blockscout_to_open_labels r d2 w1 = (w2, inr r2)) :
  heap w2 r =
    set_deployment_date
      (if truthy (verified_at d2) then verified_at d2
       else if truthy (verified_at d1) then verified_at d1
       else deployment_date (heap w r))
      (mapped (heap w r) d2).
Proof.
  destruct (is_str (r_name d1) || truthy (minimal_proxy_address_hash d1)) eqn:H1.
  2:{ destruct (map_raises r d1 w H1) as (w' & Hw & _). congruence. }
  destruct (map_returns r d1 w H1) as (w' & Hw & Hh & _).
  assert (w' = w1) as -> by congruence.
  destruct (is_str (r_name d2) || truthy (minimal_proxy_address_hash d2)) eqn:H2.
  2:{ destruct (map_raises r d2 w1 H2) as (w' & Hw' & _). congruence. }
  destruct (map_returns r d2 w1 H2) as (w' & Hw' & Hh' & _).
  assert (w' = w2) as -> by congruence.
  rewrite Hh', Hh. apply mapped_twice.
Qed.

Lemma mapper_keeps_older_date_witness :
  let d1 := mkResponse (VStr "") (VStr "Token") (VBool true) (VBool false) (VBool false)
                       (VBool false) (VStr "") (VStr "") (VStr "") (VStr "") (VStr "")
                       (VStr "2023-01-01") (VDict []) in
  let w1 := fst (map_blockscout_to_open_labels 0%nat d1 stub_world) in
  let w2 := fst (map_blockscout_to_open_labels 0%nat erc1967_response w1) in
  heap w2 0%nat =
    set_deployment_date (VStr "2023-01-01")
      (mapped (seed "0xabc" "optimism") erc1967_response).
Proof.
  intros d1 w1 w2.
  exact (mapper_keeps_older_date 0%nat 0%nat 0%nat d1 erc1967_response stub_world w1 w2
           eq_refl eq_refl).
Defined.

(** ** The unit of work, case by case *)

Lemma record_after_identity (net : nat -> Reply) (k : nat) (c : Contract) :
  same_identity c (record_after net k c).
Proof.
  unfold record_after.
  destruct (dict_get BLOCKSCOUT_APIS (origin_key c)) as [[|a u]|];
    try (unfold same_identity; tauto).
  destruct (fetch_result _ _ _ _) as [e|d]; [unfold same_identity; tauto |].
  destruct (_ || _); apply mapped_identity.
Qed.

(** What one call of [process_contract] does to the world. *)
Lemma process_contract_effect (net : nat -> Reply) (r : ref) (w : world) :
  exists w',
    process_contract net r w = (w', inr r) /\
    heap w' r = record_after net (sent w) (heap w r) /\
    (forall r', r' <> r -> heap w' r' = heap w r') /\
    events w' = events w ++ events_after net (sent w) (heap w r) /\
    sent w' = (sent w + count_gets (events_after net (sent w) (heap w r)))%nat.
Proof.
  unfold process_contract, record_after, events_after,
    mbind, M_bind, mret, M_ret, getattr, try_except, print, emit.
  destruct (dict_get BLOCKSCOUT_APIS (origin_key (heap w r))) as [[|a u]|];
    try (eexists; split; [reflexivity |]; cbn [heap events sent count_gets];
         repeat split; auto; lia).
  unfold fetch_blockscout_data. rewrite fetch_loop_normal.
  set (url := String a u +:+ address (heap w r)).
  set (fe := fetch_events net url max_retries (sent w)).
  destruct (fetch_result net url max_retries (sent w)) as [e|d].
  - destruct (is_ValueError e); eexists; (split; [reflexivity |]);
      cbn [heap events sent]; rewrite count_gets_app, <- app_assoc; cbn [count_gets];
      repeat split; auto; lia.
  - destruct (is_str (r_name d) || truthy (minimal_proxy_address_hash d)) eqn:H.
    + destruct (map_returns r d (mkWorld (heap w) (events w ++ fe)
                                   (sent w + count_gets fe)) H)
        as (w2 & -> & Hh & Hother & Hev & Hs).
      cbn [heap events sent] in *.
      exists w2. split; [reflexivity |]. rewrite app_nil_r. auto.
    + destruct (map_raises r d (mkWorld (heap w) (events w ++ fe)
                                  (sent w + count_gets fe)) H)
        as (w2 & -> & Hh & Hother & Hev & Hs).
      cbn [heap events sent is_ValueError] in *.
      eexists. split; [reflexivity |]. cbn [heap events sent].
      rewrite Hh, Hev, Hs, count_gets_app, <- app_assoc. cbn [count_gets].
      repeat split; auto; lia.
Qed.

Lemma events_after_requests (net : nat -> Reply) (k : nat) (c : Contract) :
  (count_gets (events_after net k c) <= 3)%nat /\
  (count_gets (events_after net k c) = 0%nat <->
   dict_get BLOCKSCOUT_APIS (origin_key c) = None).
Proof.
  unfold events_after.
  destruct (dict_get BLOCKSCOUT_APIS (origin_key c)) as [api_url|] eqn:Hk;
    [|cbn; split; [lia | tauto]].
  destruct (known_origin _ _ Hk) as [(a & u & ->) _].
  rewrite count_gets_app.
  destruct (fetch_events_bounds net (String a u +:+ address c) max_retries k)
    as (Hle & Hge & _).
  unfold max_retries in *. specialize (Hge ltac:(lia)).
  assert (Htail : forall l, l = match fetch_result net (String a u +:+ address c) 3 k with
                  | inl e => [Print (if is_ValueError e
                                     then MsgNotFound (address c) (origin_key c)
                                     else MsgError (address c) e)]
                  | inr d => if is_str (r_name d) || truthy (minimal_proxy_address_hash d)
                             then []
                             else [Print (MsgError (address c) AttributeError)]
                  end -> count_gets l = 0%nat).
  { intros l ->. destruct (fetch_result _ _ _ _); [reflexivity |].
    destruct (_ || _); reflexivity. }
  rewrite (Htail _ eq_refl). split; [lia |]. split; [lia | discriminate].
Qed.

(** X13.  [process_contract] never raises and returns the object it was
    given, whatever the store holds and whatever the explorer does; it
    changes no other record, and of the record itself it never changes the
    address, the origin key, the owner project, the usage category, the
    deployment transaction or the deployer address. *)
Theorem process_contract_never_raises (net : nat -> Reply) (r : ref) (w : world) :
  exists w',
    process_contract net r w = (w', inr r) /\
    (forall r', r' <> r -> heap w' r' = heap w r') /\
    same_identity (heap w r) (heap w' r).
Proof.
  destruct (process_contract_effect net r w) as (w' & Hrun & Hh & Hother & _).
  exists w'. split; [exact Hrun |]. split; [exact Hother |].
  rewrite Hh. apply record_after_identity.
Qed.

(** X14.  [process_contract] sends at most three requests for a record,
    and it sends none exactly when the origin key of the record is in no
    table of the registry; the record is then left as it is and the one
    thing printed is the unknown-origin message. *)
Theorem requests_per_record (net : nat -> Reply) (r : ref) (w : world) :
  let w' := fst (process_contract net r w) in
  (sent w <= sent w' <= sent w + 3)%nat /\
  (sent w' = sent w <-> dict_get BLOCKSCOUT_APIS (origin_key (heap w r)) = None) /\
  (dict_get BLOCKSCOUT_APIS (origin_key (heap w r)) = None ->
   heap w' r = heap w r /\
   events w' = events w ++
     [Print (MsgUnknownOrigin (address (heap w r)) (origin_key (heap w r)))]).
Proof.
  cbn zeta.
  destruct (process_contract_effect net r w) as (w' & -> & Hh & _ & Hev & Hs). cbn [fst].
  destruct (events_after_requests net (sent w) (heap w r)) as [Hle Hzero].
  split; [lia |]. split; [rewrite <- Hzero; lia |].
  intros Hk. rewrite Hh, Hev. unfold record_after, events_after. rewrite Hk. auto.
Qed.

(** X15.  When [fetch_blockscout_data] raises, [process_contract] leaves
    the record as it is and prints one message after the events of the
    fetch: the not-found message for every [ValueError], which the error of
    a body that is no JSON is as well, and the error message with the
    exception otherwise. *)
Theorem fetch_failure_is_reported (net : nat -> Reply) (r : ref) (w : world)
    (api_url : string) (e : exn)
    (Hkey : dict_get BLOCKSCOUT_APIS (origin_key (heap w r)) = Some api_url)
    (Hfetch : snd (fetch_blockscout_data net api_url (address (heap w r)) w) = inl e) :
  let w' := fst (process_contract net r w) in
  let w1 := fst (fetch_blockscout_data net api_url (address (heap w r)) w) in
  heap w' r = heap w r /\
  events w' = events w1 ++
    [Print (if is_ValueError e
            then MsgNotFound (address (heap w r)) (origin_key (heap w r))
            else MsgError (address (heap w r)) e)].
Proof.
  cbn zeta. unfold fetch_blockscout_data in *. rewrite fetch_loop_normal in *.
  cbn [fst snd events] in *.
  destruct (process_contract_effect net r w) as (w' & -> & Hh & _ & Hev & _). cbn [fst].
  rewrite Hh, Hev. unfold record_after, events_after. rewrite Hkey.
  destruct (known_origin _ _ Hkey) as [(a & u & ->) _].
  rewrite Hfetch. split; [reflexivity |]. now rewrite app_assoc.
Qed.

Lemma fetch_failure_is_reported_witness :
  let net := fun _ : nat => Response 200 None in
  let w' := fst (process_contract net 0%nat stub_world) in
  heap w' 0%nat = seed "0xabc" "optimism" /\
  events w' =
    [Get "https://optimism.blockscout.com/api/v2/smart-contracts/0xabc"] ++
    [Print (MsgNotFound "0xabc" "optimism")].
Proof.
  intros net.
  exact (fetch_failure_is_reported net 0%nat stub_world
           "https://optimism.blockscout.com/api/v2/smart-contracts/" JSONDecodeError
           eq_refl eq_refl).
Defined.

(** X16.  When the fetch returns a response whose name is a string, or
    whose proxy hash is not empty, [process_contract] leaves the record
    mapped from that response and prints nothing; the chain id of the record
    is then the registry's chain id of its origin key: the fall-back of
    [CHAIN_ID_MAP.get] to the old chain id is never used on a record that
    reaches the mapper. *)
Theorem success_maps_the_record (net : nat -> Reply) (r : ref) (w : world)
    (api_url : string) (d : BlockscoutResponse)
    (Hkey : dict_get BLOCKSCOUT_APIS (origin_key (heap w r)) = Some api_url)
    (Hfetch : snd (fetch_blockscout_data net api_url (address (heap w r)) w) = inr d)
    (Hname : is_str (r_name d) || truthy (minimal_proxy_address_hash d) = true) :
  let w' := fst (process_contract net r w) in
  heap w' r = mapped (heap w r) d /\
  events w' = events (fst (fetch_blockscout_data net api_url (address (heap w r)) w)) /\
  dict_get CHAIN_ID_MAP (origin_key (heap w r)) = Some (chain_id (heap w' r)).
Proof.
  cbn zeta. unfold fetch_blockscout_data in *. rewrite fetch_loop_normal in *.
  cbn [fst snd events] in *.
  destruct (process_contract_effect net r w) as (w' & -> & Hh & _ & Hev & _). cbn [fst].
  rewrite Hh, Hev. unfold record_after, events_after. rewrite Hkey.
  destruct (known_origin _ _ Hkey) as [(a & u & ->) (id & Hid)].
  rewrite Hfetch, Hname, app_nil_r. split; [reflexivity |]. split; [reflexivity |].
  unfold mapped. cbn_fields. rewrite Hid. reflexivity.
Qed.

Lemma success_maps_the_record_witness :
  let net := fun _ : nat => Response 200 (Some (VDict [("name", VStr "MyERC1967Proxy")])) in
  let w' := fst (process_contract net 0%nat stub_world) in
  heap w' 0%nat = mapped (seed "0xabc" "optimism") erc1967_response /\
  events w' =
    events (fst (fetch_blockscout_data net
                   "https://optimism.blockscout.com/api/v2/smart-contracts/" "0xabc"
                   stub_world)) /\
  dict_get CHAIN_ID_MAP "optimism" = Some (chain_id (heap w' 0%nat)).
Proof.
  intros net.
  exact (success_maps_the_record net 0%nat stub_world
           "https://optimism.blockscout.com/api/v2/smart-contracts/" erc1967_response
           eq_refl eq_refl eq_refl).
Defined.

(** ** The dispatcher and the store *)

Lemma elem_of_map {A B} (f : A -> B) (l : list A) (y : B) :
  y ∈ map f l <-> exists x, y = f x /\ x ∈ l.
Proof.
  rewrite list_elem_of_In, in_map_iff. split; intros (x & H1 & H2); exists x.
  - now rewrite list_elem_of_In.
  - now rewrite <- list_elem_of_In.
Qed.

Section PoolStore.

Variable net : nat -> nat -> Reply.
Variable clock : nat -> string.

(** Only the completion of a work item changes the store or sends a
    request, and it does what [process_contract] does for its record; the
    other moves keep the records whose work item has completed. *)
Lemma step_store (a : action) (p p' : pool) :
  Forall (fun f => snd f = inr (obj (fst f))) (finished p) ->
  step net clock a p = Some p' ->
  (exists i t,
      a = Finish i /\ running p !! i = Some t /\
      p_heap p' (obj t) = record_after (net (tid t)) 0 (p_heap p (obj t)) /\
      (forall r, r <> obj t -> p_heap p' r = p_heap p r) /\
      p_events p' = p_events p ++ events_after (net (tid t)) 0 (p_heap p (obj t)) /\
      done p' ≡ₚ obj t :: done p /\
      processed_contracts p' = processed_contracts p /\
      stats p' = stats p) \/
  ((forall i, a <> Finish i) /\
   p_heap p' = p_heap p /\
   count_gets (p_events p') = count_gets (p_events p) /\
   done p' ≡ₚ done p).
Proof.
  intros Hres Hstep. destruct a as [| |i|i]; cbn [step] in Hstep.
  - right. destruct (to_submit p); [discriminate |].
    destruct (idle_semaphore p); injection Hstep as <-; cbn;
      (split; [discriminate |]); repeat split; auto.
  - right. destruct (work_queue p); [discriminate |].
    destruct (_ <? _)%nat; [|discriminate].
    injection Hstep as <-; cbn; (split; [discriminate |]); repeat split; auto.
  - left. destruct (running p !! i) as [t|] eqn:Hi; [|discriminate].
    destruct (process_contract_effect (net (tid t)) (obj t)
                (mkWorld (p_heap p) (p_events p) 0))
      as (w & Hw & Hh & Hother & Hev & _).
    rewrite Hw in Hstep. injection Hstep as <-. cbn [heap events sent] in *.
    exists i, t. cbn. repeat split; auto.
    unfold done. cbn. rewrite map_app. cbn.
    rewrite <- app_assoc. cbn. symmetry. apply Permutation_middle.
  - right. destruct (to_submit p); [|discriminate].
    destruct (failed p) eqn:Hf; [discriminate |].
    destruct (finished p !! i) as [[t result]|] eqn:Hi; [|discriminate].
    pose proof (Forall_lookup_1 _ _ _ _ Hres Hi) as Hr. cbn in Hr. subst result.
    injection Hstep as <-. unfold observe. cbn.
    split; [discriminate |]. split; [reflexivity |]. split.
    { rewrite count_gets_app. cbn. lia. }
    unfold done. cbn.
    pose proof (delete_Permutation _ _ _ Hi) as Hperm.
    transitivity (obj t :: map (fun f => obj (fst f)) (delete i (finished p))
                    ++ processed_contracts p).
    + rewrite (Permutation_app_comm (processed_contracts p) [obj t]). cbn.
      symmetry. apply Permutation_middle.
    + apply (Permutation_app_tail (processed_contracts p)
               (l := obj t :: map (fun f => obj (fst f)) (delete i (finished p)))).
      symmetry. exact (Permutation_map (fun f => obj (fst f)) Hperm).
Qed.

(** Induction on the moves of a call. *)
Lemma reachable_ind (P : pool -> Prop) (h : ref -> Contract) (contracts : list ref)
    (max_queries : Z) :
  P (enter h contracts max_queries) ->
  (forall a p p',
      pool_inv (length contracts) (to_submit (enter h contracts max_queries)) p ->
      P p -> step net clock a p = Some p' -> P p') ->
  forall acts p,
    process_contracts net clock h contracts max_queries acts = Some p -> P p.
Proof.
  intros H0 Hstep acts. unfold process_contracts.
  pose proof (pool_inv_enter h contracts max_queries) as Hinv.
  revert H0 Hinv. generalize (enter h contracts max_queries) at 1 3 4 as p0.
  induction acts as [|a acts IH]; intros p0 H0 Hinv p Hexec; cbn in Hexec.
  - now injection Hexec as <-.
  - destruct (step net clock a p0) as [p1|] eqn:Hs; [|discriminate].
    apply (IH p1); [eapply Hstep; eauto | eapply pool_inv_step; eauto | exact Hexec].
Qed.

End PoolStore.

Lemma same_identity_trans (a b c : Contract) :
  same_identity a b -> same_identity b c -> same_identity a c.
Proof. unfold same_identity. intuition congruence. Qed.

Lemma same_identity_refl (a : Contract) : same_identity a a.
Proof. unfold same_identity. tauto. Qed.

Lemma done_in_pool (p : pool) : (length (done p) <= length (in_pool p))%nat.
Proof. unfold done, in_pool. rewrite !length_app. lia. Qed.

Lemma running_in_pool (p : pool) (i : nat) (t : Task) :
  running p !! i = Some t -> obj t ∈ in_pool p.
Proof.
  intros Hi. unfold in_pool. rewrite !elem_of_app. right. right. left.
  apply elem_of_map. exists t. split; [reflexivity |]. eapply list_elem_of_lookup_2, Hi.
Qed.

Lemma reachable_identity (net : nat -> nat -> Reply) (clock : nat -> string)
    (h : ref -> Contract) (contracts : list ref) (max_queries : Z)
    (acts : list action) (p : pool)
    (Hrun : process_contracts net clock h contracts max_queries acts = Some p) :
  forall r, same_identity (h r) (p_heap p r).
Proof.
  revert acts p Hrun.
  apply (reachable_ind net clock (fun p => forall r, same_identity (h r) (p_heap p r))).
  - intros r. apply same_identity_refl.
  - intros a p p' Hinv IH Hstep r.
    destruct (step_store net clock a p p' (inv_results _ _ _ Hinv) Hstep)
      as [(i & t & _ & _ & Hh & Hother & _) | (_ & Hh & _)].
    + destruct (Nat.eq_dec r (obj t)) as [->|Hne].
      * rewrite Hh. eapply same_identity_trans; [apply IH | apply record_after_identity].
      * rewrite (Hother r Hne). apply IH.
    + rewrite Hh. apply IH.
Qed.


(** X17.  In every state of a call of [process_contracts], every record of
    the store has the address, origin key, owner project, usage category,
    deployment transaction and deployer address it had on entry: the
    pipeline never fills or changes them. *)
Theorem run_keeps_identity (net : nat -> nat -> Reply) (clock : nat -> string)
    (h : ref -> Contract) (contracts : list ref) (max_queries : Z)
    (acts : list action) (p : pool)
    (Hrun : process_contracts net clock h contracts max_queries acts = Some p) :
  forall r, same_identity (h r) (p_heap p r).
Proof. exact (reachable_identity net clock h contracts max_queries acts p Hrun). Qed.

Lemma run_keeps_identity_witness :
  same_identity (demo_heap 0%nat) (p_heap demo_final 0%nat).
Proof.
  exact (run_keeps_identity demo_net demo_clock demo_heap [0; 1; 2]%nat 0 (in_order 3)
           demo_final ltac:(vm_compute; reflexivity) 0%nat).
Defined.

(** X18.  A record that is not in the submitted slice is never modified:
    in every state of a call it is as it was on entry. *)
Theorem unsubmitted_records_untouched (net : nat -> nat -> Reply) (clock : nat -> string)
    (h : ref -> Contract) (contracts : list ref) (max_queries : Z)
    (acts : list action) (p : pool)
    (Hrun : process_contracts net clock h contracts max_queries acts = Some p) :
  forall r,
    r ∉ slice_to contracts (int_or max_queries (Z.of_nat (length contracts))) ->
    p_heap p r = h r.
Proof.
  revert acts p Hrun.
  apply (reachable_ind net clock
           (fun p => forall r,
              r ∉ slice_to contracts (int_or max_queries (Z.of_nat (length contracts))) ->
              p_heap p r = h r)).
  - reflexivity.
  - intros a p p' Hinv IH Hstep r Hr.
    destruct (step_store net clock a p p' (inv_results _ _ _ Hinv) Hstep)
      as [(i & t & _ & Hi & _ & Hother & _) | (_ & Hh & _)].
    + rewrite Hother; [apply IH; exact Hr |].
      intros ->. apply Hr. cbn [enter to_submit] in Hinv.
      rewrite <- (inv_records _ _ _ Hinv). eapply running_in_pool, Hi.
    + rewrite Hh. apply IH. exact Hr.
Qed.

Lemma unsubmitted_records_untouched_witness :
  p_heap demo_bounded_final 2%nat = demo_heap 2%nat.
Proof.
  apply (unsubmitted_records_untouched demo_net demo_clock demo_heap [0; 1; 2]%nat 1
           (in_order 1) demo_bounded_final ltac:(vm_compute; reflexivity) 2%nat).
  change (slice_to [0; 1; 2]%nat (int_or 1 (Z.of_nat (length [0; 1; 2]%nat))))
    with [0%nat].
  rewrite list_elem_of_singleton. lia.
Defined.

(** X19.  A call of [process_contracts] sends at most three requests for
    each work item that has completed, so at most three times the number of
    submitted records in all. *)
Theorem requests_per_run (net : nat -> nat -> Reply) (clock : nat -> string)
    (h : ref -> Contract) (contracts : list ref) (max_queries : Z)
    (acts : list action) (p : pool)
    (Hrun : process_contracts net clock h contracts max_queries acts = Some p) :
  (count_gets (p_events p) <= 3 * length (done p))%nat /\
  (length (done p)
   <= length (slice_to contracts (int_or max_queries (Z.of_nat (length contracts)))))%nat.
Proof.
  split.
  - revert acts p Hrun.
    apply (reachable_ind net clock
             (fun p => (count_gets (p_events p) <= 3 * length (done p))%nat));
      [cbn; lia |].
    intros a p p' Hinv IH Hstep.
    destruct (step_store net clock a p p' (inv_results _ _ _ Hinv) Hstep)
      as [(i & t & _ & _ & _ & _ & Hev & Hdone & _) | (_ & _ & Hev & Hdone)].
    + rewrite Hev, count_gets_app, Hdone. cbn [length].
      pose proof (events_after_requests (net (tid t)) 0 (p_heap p (obj t))) as [Hle _].
      lia.
    + rewrite Hev, Hdone. exact IH.
  - pose proof (pool_inv_reachable net clock _ _ _ _ _ Hrun) as Hinv.
    cbn [enter to_submit] in Hinv. rewrite <- (inv_records _ _ _ Hinv).
    apply done_in_pool.
Qed.

Lemma requests_per_run_witness :
  (count_gets (p_events demo_final) <= 3 * length (done demo_final))%nat /\
  (length (done demo_final) <= length (slice_to [0; 1; 2]%nat (int_or 0 (Z.of_nat 3))))%nat.
Proof.
  exact (requests_per_run demo_net demo_clock demo_heap [0; 1; 2]%nat 0 (in_order 3)
           demo_final ltac:(vm_compute; reflexivity)).
Defined.

(** ** The dispatcher on distinct records *)

Lemma count_where_app (f : Contract -> bool) (h : ref -> Contract) (l : list ref) (r : ref) :
  count_where f h (l ++ [r]) = count_where f h l + (if f (h r) then 1 else 0).
Proof.
  unfold count_where. rewrite List.filter_app, length_app. cbn.
  destruct (f (h r)); cbn; lia.
Qed.

Lemma count_where_ext (f : Contract -> bool) (h1 h2 : ref -> Contract) (l : list ref) :
  (forall r, r ∈ l -> h1 r = h2 r) -> count_where f h1 l = count_where f h2 l.
Proof.
  intros H. unfold count_where. f_equal. f_equal.
  induction l as [|r l IH]; [reflexivity |]. cbn.
  rewrite (H r) by (apply elem_of_cons; now left).
  rewrite IH; [reflexivity |]. intros r' Hr'. apply H. apply elem_of_cons. now right.
Qed.

Lemma slice_to_NoDup {A} (l : list A) (stop : Z) : NoDup l -> NoDup (slice_to l stop).
Proof.
  intros H. unfold slice_to.
  destruct (stop <? 0); eapply sublist_NoDup; eauto using sublist_take.
Qed.

Lemma running_not_done (p : pool) (i : nat) (t : Task) :
  NoDup (in_pool p) -> running p !! i = Some t -> obj t ∉ done p.
Proof.
  intros Hnd Hi. unfold in_pool in Hnd. unfold done.
  assert (Hin : obj t ∈ map obj (running p)).
  { apply elem_of_map. exists t. split; [reflexivity |]. eapply list_elem_of_lookup_2, Hi. }
  apply NoDup_app in Hnd as (_ & Hp & Hnd).
  apply NoDup_app in Hnd as (_ & Hf & _).
  rewrite elem_of_app. intros [H | H].
  - apply (Hf _ H). rewrite elem_of_app. now left.
  - apply (Hp _ H). rewrite !elem_of_app. right. now left.
Qed.

Section DistinctRecords.

Variable net : nat -> nat -> Reply.
Variable clock : nat -> string.
Variable h : ref -> Contract.
Variable slice : list ref.

Lemma numbered_step (a : action) (p p' : pool) :
  numbered slice p -> step net clock a p = Some p' -> numbered slice p'.
Proof.
  intros [Hsub Htasks] Hstep. unfold numbered, tasks in *.
  destruct a as [| |i|i]; cbn [step] in Hstep.
  - destruct (to_submit p) as [|c rest] eqn:Hts; [discriminate |].
    assert (Hc : slice !! submitted p = Some c).
    { rewrite <- (Nat.add_0_r (submitted p)), <- lookup_drop, <- Hsub. reflexivity. }
    assert (Hrest : rest = drop (S (submitted p)) slice).
    { replace (S (submitted p)) with (submitted p + 1)%nat by lia.
      rewrite <- drop_drop, <- Hsub. reflexivity. }
    destruct (idle_semaphore p); injection Hstep as <-; cbn;
      (split; [exact Hrest |]); intros t; rewrite <- !app_assoc, !elem_of_app;
      (intros [H|[H|H]];
       [ apply Htasks; rewrite !elem_of_app; tauto
       | apply elem_of_cons in H as [->|H]; [exact Hc | now apply elem_of_nil in H]
       | apply Htasks; rewrite !elem_of_app; tauto ]).
  - destruct (work_queue p) as [|t0 queue] eqn:Hq; [discriminate |].
    destruct (_ <? _)%nat; [|discriminate].
    injection Hstep as <-; cbn. split; [exact Hsub |].
    intros t. rewrite !elem_of_app, elem_of_cons, elem_of_nil. intros H.
    apply Htasks. rewrite elem_of_app, elem_of_cons, elem_of_app. tauto.
  - destruct (running p !! i) as [t0|] eqn:Hi; [|discriminate].
    destruct (process_contract _ _ _) as [w result].
    injection Hstep as <-; cbn. split; [exact Hsub |].
    pose proof (delete_Permutation _ _ _ Hi) as Hperm.
    intros t. rewrite map_app, !elem_of_app. cbn.
    rewrite elem_of_cons, elem_of_nil. intros H.
    apply Htasks. rewrite !elem_of_app, Hperm, elem_of_cons. tauto.
  - destruct (to_submit p) eqn:Hts; [|discriminate].
    destruct (failed p); [discriminate |].
    destruct (finished p !! i) as [[t0 result]|] eqn:Hi; [|discriminate].
    pose proof (delete_Permutation _ _ _ Hi) as Hperm.
    assert (Hsame : forall t,
               t ∈ work_queue p ++ running p ++ map fst (delete i (finished p)) ->
               slice !! tid t = Some (obj t)).
    { intros t. rewrite !elem_of_app, elem_of_map. intros H.
      apply Htasks. rewrite !elem_of_app, elem_of_map.
      destruct H as [H|[H|(f & -> & H)]]; [tauto | tauto |].
      right. right. exists f. split; [reflexivity |]. rewrite Hperm. now right. }
    destruct result; injection Hstep as <-; unfold observe; cbn;
      (split; [first [exact Hsub | now rewrite Hts] |]); exact Hsame.
Qed.

Lemma settled_step (a : action) (p p' : pool) :
  forall n, pool_inv n slice p -> NoDup slice -> numbered slice p ->
  settled net h slice p -> step net clock a p = Some p' -> settled net h slice p'.
Proof.
  intros n Hinv Hnd [_ Htasks] (Hrest & Hdone & Hnamed & Hproxy) Hstep.
  assert (Hndp : NoDup (in_pool p)) by (now rewrite (inv_records _ _ _ Hinv)).
  destruct (step_store net clock a p p' (inv_results _ _ _ Hinv) Hstep)
    as [(i & t & -> & Hi & Hh & Hother & _ & Hd & Hproc & Hstats)
       | (Hnf & Hh & _ & Hd)].
  - (* a work item completes *)
    pose proof (running_not_done p i t Hndp Hi) as Hfresh.
    assert (Hnotproc : obj t ∉ processed_contracts p).
    { intros H. apply Hfresh. unfold done. rewrite elem_of_app. now right. }
    assert (Hkeep : forall r, r ∈ processed_contracts p -> p_heap p' r = p_heap p r).
    { intros r Hr. apply Hother. intros ->. now apply Hnotproc. }
    split; [|split; [|split]].
    + intros r Hr. rewrite Hd, elem_of_cons in Hr.
      rewrite Hother by tauto. apply Hrest. tauto.
    + intros r Hr. rewrite Hd, elem_of_cons in Hr.
      destruct (Nat.eq_dec r (obj t)) as [->|Hne].
      * exists (tid t). split.
        -- apply Htasks. unfold tasks. rewrite !elem_of_app. right. left.
           eapply list_elem_of_lookup_2, Hi.
        -- rewrite Hh, (Hrest _ Hfresh). reflexivity.
      * rewrite (Hother _ Hne). apply Hdone. tauto.
    + rewrite Hstats, Hproc, Hnamed. symmetry. now apply count_where_ext.
    + rewrite Hstats, Hproc, Hproxy. symmetry. now apply count_where_ext.
  - (* the store is as it was *)
    split; [|split].
    + intros r Hr. rewrite Hd in Hr. rewrite Hh. now apply Hrest.
    + intros r Hr. rewrite Hd in Hr. rewrite Hh. now apply Hdone.
    + rewrite Hh. destruct a as [| |i|i]; cbn [step] in Hstep.
      * destruct (to_submit p); [discriminate |].
        destruct (idle_semaphore p); injection Hstep as <-; cbn; auto.
      * destruct (work_queue p); [discriminate |].
        destruct (_ <? _)%nat; [|discriminate]. injection Hstep as <-; cbn; auto.
      * now destruct (Hnf i).
      * destruct (to_submit p); [|discriminate].
        destruct (failed p); [discriminate |].
        destruct (finished p !! i) as [[t result]|] eqn:Hi; [|discriminate].
        pose proof (Forall_lookup_1 _ _ _ _ (inv_results _ _ _ Hinv) Hi) as Hr.
        cbn in Hr. subst result. injection Hstep as <-. unfold observe. cbn.
        rewrite !count_where_app, Hnamed, Hproxy.
        split; [destruct (truthy _) | destruct (is_proxy_contract _)]; lia.
Qed.

End DistinctRecords.

Lemma settled_reachable (net : nat -> nat -> Reply) (clock : nat -> string)
    (h : ref -> Contract) (contracts : list ref) (max_queries : Z)
    (acts : list action) (p : pool) :
  NoDup contracts ->
  process_contracts net clock h contracts max_queries acts = Some p ->
  let slice := slice_to contracts (int_or max_queries (Z.of_nat (length contracts))) in
  numbered slice p /\ settled net h slice p.
Proof.
  intros Hnd Hrun slice. revert acts p Hrun.
  apply (reachable_ind net clock (fun p => numbered slice p /\ settled net h slice p)).
  - split.
    + split; [reflexivity |]. intros t Ht. now apply elem_of_nil in Ht.
    + repeat split; try reflexivity.
      intros r Hr. now apply elem_of_nil in Hr.
  - intros a p p' Hinv [Hnum Hset] Hstep. split.
    + eapply numbered_step; eauto.
    + eapply settled_step; eauto. now apply slice_to_NoDup.
Qed.

(** X20.  When the records of the batch are distinct objects, what a call
    leaves in a record does not depend on the order in which the threads
    move: a record whose work item has completed holds what
    [process_contract] makes of the record on entry with the replies to its
    own work item, the position of the record in the list; any other record
    is as on entry; and at the end every submitted record is of the first
    kind. *)
Theorem records_do_not_depend_on_schedule (net : nat -> nat -> Reply)
    (clock : nat -> string) (h : ref -> Contract) (contracts : list ref)
    (max_queries : Z) (acts : list action) (p : pool)
    (Hdistinct : NoDup contracts)
    (Hrun : process_contracts net clock h contracts max_queries acts = Some p) :
  let slice := slice_to contracts (int_or max_queries (Z.of_nat (length contracts))) in
  (forall i r, slice !! i = Some r -> r ∈ done p ->
               p_heap p r = record_after (net i) 0 (h r)) /\
  (forall r, r ∉ done p -> p_heap p r = h r) /\
  (completed p = true -> forall r, r ∈ slice -> r ∈ done p).
Proof.
  intros slice.
  destruct (settled_reachable net clock h contracts max_queries acts p Hdistinct Hrun)
    as [_ (Hrest & Hdone & _)].
  pose proof (pool_inv_reachable net clock _ _ _ _ _ Hrun) as Hinv.
  cbn [enter to_submit] in Hinv. fold slice in Hinv, Hrest, Hdone.
  split; [|split; [exact Hrest |]].
  - intros i r Hi Hr. destruct (Hdone r Hr) as (j & Hj & ->).
    assert (j = i) as ->; [|reflexivity].
    apply (NoDup_lookup slice j i r); [apply slice_to_NoDup, Hdistinct | exact Hj | exact Hi].
  - intros Hc r Hr.
    destruct (completed_output _ _ _ Hinv Hc) as [_ Hperm].
    unfold done. rewrite elem_of_app. right. now rewrite Hperm.
Qed.

Lemma demo_distinct : NoDup [0; 1; 2]%nat.
Proof. repeat (constructor; [rewrite ?elem_of_cons, ?elem_of_nil; lia |]). constructor. Qed.

Lemma records_do_not_depend_on_schedule_witness :
  (forall i r,
      slice_to [0; 1; 2]%nat (int_or 0 (Z.of_nat 3)) !! i = Some r ->
      r ∈ done demo_final ->
      p_heap demo_final r = record_after (demo_net i) 0 (demo_heap r)) /\
  (forall r, r ∉ done demo_final -> p_heap demo_final r = demo_heap r) /\
  (completed demo_final = true ->
   forall r, r ∈ slice_to [0; 1; 2]%nat (int_or 0 (Z.of_nat 3)) -> r ∈ done demo_final).
Proof.
  exact (records_do_not_depend_on_schedule demo_net demo_clock demo_heap [0; 1; 2]%nat 0
           (in_order 3) demo_final demo_distinct ltac:(vm_compute; reflexivity)).
Defined.

(** X21.  When the records of the batch are distinct objects, the two
    counters are, in every state of a call, the numbers of records of the
    result list that have a non-empty name and that are flagged as proxy. *)
Theorem counters_count_the_results (net : nat -> nat -> Reply)
    (clock : nat -> string) (h : ref -> Contract) (contracts : list ref)
    (max_queries : Z) (acts : list action) (p : pool)
    (Hdistinct : NoDup contracts)
    (Hrun : process_contracts net clock h contracts max_queries acts = Some p) :
  contracts_with_name (stats p)
    = count_where (fun c => truthy (name c)) (p_heap p) (processed_contracts p) /\
  proxy_contracts (stats p)
    = count_where is_proxy_contract (p_heap p) (processed_contracts p).
Proof.
  destruct (settled_reachable net clock h contracts max_queries acts p Hdistinct Hrun)
    as [_ (_ & _ & Hnamed & Hproxy)].
  split; assumption.
Qed.

Lemma counters_count_the_results_witness :
  contracts_with_name (stats demo_final)
    = count_where (fun c => truthy (name c)) (p_heap demo_final)
                  (processed_contracts demo_final) /\
  proxy_contracts (stats demo_final)
    = count_where is_proxy_contract (p_heap demo_final) (processed_contracts demo_final).
Proof.
  exact (counters_count_the_results demo_net demo_clock demo_heap [0; 1; 2]%nat 0
           (in_order 3) demo_final demo_distinct ltac:(vm_compute; reflexivity)).
Defined.

(** ** From the loader to the results *)

Lemma heap_of_lookup (contracts : list Contract) (r : ref) (c : Contract) :
  contracts !! r = Some c -> heap_of contracts r = c.
Proof. intros H. unfold heap_of. now apply nth_lookup_Some. Qed.

Lemma slice_to_subseteq {A} (l : list A) (stop : Z) (x : A) :
  x ∈ slice_to l stop -> x ∈ l.
Proof.
  unfold slice_to. destruct (stop <? 0); intros H; eapply subseteq_take; exact H.
Qed.

(** X22.  When the batch is what [process_csv] returned, every record of
    the result list is one of the loaded records, with the address the
    loader gave it, and that address starts with ["0x"]: the prefix put by
    the loader comes through the pipeline. *)
Theorem loaded_batch_keeps_prefix (rows : list Row) (loaded : list Contract)
    (net : nat -> nat -> Reply) (clock : nat -> string) (max_queries : Z)
    (acts : list action) (p : pool)
    (Hload : process_csv rows = inr loaded)
    (Hrun : process_contracts net clock (heap_of loaded) (seq 0 (length loaded))
              max_queries acts = Some p) :
  forall r, r ∈ processed_contracts p ->
    exists c,
      loaded !! r = Some c /\
      address (p_heap p r) = address c /\
      origin_key (p_heap p r) = origin_key c /\
      startswith (address (p_heap p r)) "0x" = true.
Proof.
  intros r Hr.
  pose proof (pool_inv_reachable net clock _ _ _ _ _ Hrun) as Hinv.
  cbn [enter to_submit] in Hinv.
  assert (Hin : r ∈ seq 0 (length loaded)).
  { eapply slice_to_subseteq. rewrite <- (inv_records _ _ _ Hinv).
    unfold in_pool. rewrite elem_of_app. left. exact Hr. }
  apply elem_of_seq in Hin as [_ Hlt].
  destruct (lookup_lt_is_Some_2 loaded r ltac:(lia)) as [c Hc].
  destruct (reachable_identity net clock _ _ _ _ _ Hrun r) as (Ha & Hk & _).
  rewrite (heap_of_lookup _ _ _ Hc) in Ha, Hk.
  exists c. split; [exact Hc |]. split; [exact Ha |]. split; [exact Hk |].
  rewrite Ha.
  exact (proj1 (Forall_lookup_1 _ _ _ _ (loaded_prefix rows loaded Hload) Hc)).
Qed.

Lemma loaded_batch_keeps_prefix_witness :
  exists c,
    [seed "0xabc123" "optimism"] !! 0%nat = Some c /\
    address (p_heap loaded_final 0%nat) = address c /\
    origin_key (p_heap loaded_final 0%nat) = origin_key c /\
    startswith (address (p_heap loaded_final 0%nat)) "0x" = true.
Proof.
  apply (loaded_batch_keeps_prefix
           [[("encode", "abc123"); ("origin_key", "optimism")]]
           [seed "0xabc123" "optimism"]
           (fun _ _ => Response 404 None) demo_clock 0 (in_order 1) loaded_final
           eq_refl ltac:(vm_compute; reflexivity) 0%nat).
  change (processed_contracts loaded_final) with [0%nat].
  apply list_elem_of_singleton. reflexivity.
Defined.

(** ** Nothing to submit *)

(** X23.  When the slice is empty -- an empty input, or a negative
    [max_queries] that drops every record -- the call does nothing: no
    thread can move, and it returns the empty list with the total counter at
    the length of the input, the other counters at zero, and the elapsed
    time, which only the loop sets, still the empty string. *)
Theorem empty_slice_returns_at_once (net : nat -> nat -> Reply) (clock : nat -> string)
    (h : ref -> Contract) (contracts : list ref) (max_queries : Z)
    (acts : list action) (p : pool)
    (Hempty : contracts = [] \/ max_queries <= - Z.of_nat (length contracts))
    (Hrun : process_contracts net clock h contracts max_queries acts = Some p) :
  acts = [] /\
  completed p = true /\
  p_heap p = h /\ p_events p = [] /\
  process_contracts_result p =
    inr ([], mkStats (Z.of_nat (length contracts)) 0 0 0 "").
Proof.
  assert (Hslice : slice_to contracts (int_or max_queries (Z.of_nat (length contracts))) = []).
  { destruct Hempty as [->|Hle]; [unfold slice_to; destruct (_ <? _); apply take_nil |].
    unfold slice_to, int_or. destruct (Z.eqb_spec max_queries 0) as [->|Hne].
    - assert (length contracts = 0%nat) as Hlen by lia.
      destruct contracts; [|discriminate]. reflexivity.
    - destruct (Z.ltb_spec max_queries 0); [|lia].
      replace (Z.to_nat _) with 0%nat by lia. reflexivity. }
  unfold process_contracts, enter in Hrun. rewrite Hslice in Hrun.
  destruct acts as [|a acts]; cbn in Hrun.
  - injection Hrun as <-. repeat split.
  - destruct a as [| |i|i]; cbn in Hrun; discriminate.
Qed.

Lemma empty_slice_returns_at_once_witness :
  @nil action = [] /\
  completed (enter demo_heap [0; 1; 2]%nat (-5)) = true /\
  p_heap (enter demo_heap [0; 1; 2]%nat (-5)) = demo_heap /\
  p_events (enter demo_heap [0; 1; 2]%nat (-5)) = [] /\
  process_contracts_result (enter demo_heap [0; 1; 2]%nat (-5)) =
    inr ([], mkStats (Z.of_nat 3) 0 0 0 "").
Proof.
  apply (empty_slice_returns_at_once demo_net demo_clock demo_heap [0; 1; 2]%nat (-5) []).
  - right. cbn. lia.
  - reflexivity.
Defined.
